(** * genro-db: the PostgreSQL adapter, the connection register, the
      schema synchronizer, the trigger stack and the table engine

    The PostgreSQL adapter ([genro_db/adapters/postgres.py]) and the
    connection register ([genro_db/cli/config.py]) are embedded from
    their sources.  Python dictionaries are finite maps ([gmap]), Python
    sets are finite sets ([gset]); a DB-API cursor is a piece of state
    passed through every call, and the register file is a piece of state
    holding the JSON document last written to it.

    The adapter base class, the schema synchronizer, the trigger stack
    and the table class are not among the sources; each is modelled from
    the spec and says so where it is defined.

    The definitions come first, the properties after them. *)

From stdpp Require Import gmap strings list fin_maps pretty.
From Stdlib Require Import ZArith Lia.

(* [set_solver] clears hypotheses it has already consumed, and the nested
   types [call] and [json] get no automatic induction scheme. *)
Set Warnings "-clear-no-such-hyp,-register-all".

Local Open Scope string_scope.
Local Open Scope list_scope.

(** ** Python dictionaries *)

(** A dictionary display [{k1: v1, k2: v2, ...}] and a loop of
    assignments [d[k] = v] both store the items from left to right, a
    later item replacing an earlier one with the same key. *)
Definition dict_items {K V} `{Countable K} (items : list (K * V)) : gmap K V :=
  foldl (fun d kv => <[kv.1 := kv.2]> d) ∅ items.

(** ** Logical types *)

(** The keys of [type_map] are the Python types [str], [int], [float],
    [bool], [bytes], [Decimal], [date], [datetime] and [time]: the
    logical types text, integer, float, boolean, binary, decimal, date,
    datetime and time of the schema model. *)
Inductive logical_type : Type :=
  | py_str | py_int | py_float | py_bool | py_bytes
  | py_Decimal | py_date | py_datetime | py_time.

Definition logical_types : list logical_type :=
  [py_str; py_int; py_float; py_bool; py_bytes;
   py_Decimal; py_date; py_datetime; py_time].

#[global] Instance logical_type_eq_dec : EqDecision logical_type.
Proof. solve_decision. Defined.

Definition logical_type_code (t : logical_type) : nat :=
  match t with
  | py_str => 0 | py_int => 1 | py_float => 2 | py_bool => 3 | py_bytes => 4
  | py_Decimal => 5 | py_date => 6 | py_datetime => 7 | py_time => 8
  end.

Definition logical_type_of_code (n : nat) : logical_type :=
  nth n logical_types py_time.

#[global] Instance logical_type_countable : Countable logical_type.
Proof.
  apply (inj_countable' logical_type_code logical_type_of_code).
  intros t. destruct t; reflexivity.
Defined.

(** ** Values, columns and tables *)

(** A value stored in a column of a row. *)
Inductive value : Type :=
  | VNull
  | VInt (z : Z)
  | VText (s : string)
  | VBool (b : bool).

#[global] Instance value_eq_dec : EqDecision value.
Proof. solve_decision. Defined.

Definition value_code (v : value) : unit + (Z + (string + bool)) :=
  match v with
  | VNull => inl tt
  | VInt z => inr (inl z)
  | VText s => inr (inr (inl s))
  | VBool b => inr (inr (inr b))
  end.

Definition value_of_code (x : unit + (Z + (string + bool))) : value :=
  match x with
  | inl _ => VNull
  | inr (inl z) => VInt z
  | inr (inr (inl s)) => VText s
  | inr (inr (inr b)) => VBool b
  end.

#[global] Instance value_countable : Countable value.
Proof.
  apply (inj_countable' value_code value_of_code).
  intros v. destruct v; reflexivity.
Defined.

(** Modelled from the spec: the Column descriptor of the Schema Model
    (name, logical type, nullable, default, primary-key flag); the module
    that declares it is not among the sources. *)
Record Column : Type := {
  col_name : string;
  col_type : logical_type;
  col_nullable : bool;
  col_default : option value;
  col_primary_key : bool }.

(** Modelled from the spec: a declared table, the ordered sequence of its
    columns and the name of its single primary key column.  The adapter
    reads [sql_name] from it; the class itself is not among the sources. *)
Record Table : Type := {
  sql_name : string;
  columns : list Column;
  pkey : string }.

Definition column_names (t : Table) : list string := col_name <$> columns t.

(** A primary key column of integer type generates its own values. *)
Definition auto_generated (col : Column) : bool :=
  col_primary_key col && bool_decide (col_type col = py_int).

(** ** The cursor *)

(** A row of the result of the introspection query: its four selected
    columns.  [column_default] is [None] where the driver gives [None]. *)
Record ColumnRow : Type := {
  column_name : string;
  data_type : string;
  is_nullable : string;
  column_default : option string }.

(** A row of [information_schema.columns]: the table it belongs to, its
    position, and the four columns the adapter selects. *)
Record CatalogColumn : Type := {
  table_name : string;
  ordinal_position : Z;
  selected : ColumnRow }.

(** The part of the catalog of the connected database that the adapter
    queries: the [table_name] column of [information_schema.tables] and
    the rows of [information_schema.columns]. *)
Record Catalog : Type := {
  information_schema_tables : list string;
  information_schema_columns : list CatalogColumn }.

(** What the last executed statement left to fetch. *)
Inductive ResultSet : Type :=
  | NoResult
  | ColumnRows (rows : list ColumnRow)
  | ExistsRow (b : bool).

(** A cursor on a connection.  [engine] is what the database does to its
    catalog when it runs a statement that is not one of the two queries
    below; [executed] lists every statement passed to [execute], with its
    parameters, oldest first.  Errors raised by the client library are not
    modelled: [execute] always returns. *)
Record Cursor : Type := {
  database : Catalog;
  engine : string -> Catalog -> Catalog;
  executed : list (string * list string);
  fetched : ResultSet }.

Definition columns_query : string :=
  "
            SELECT column_name, data_type, is_nullable, column_default
            FROM information_schema.columns
            WHERE table_name = %s
            ORDER BY ordinal_position
            ".

Definition tables_query : string :=
  "
            SELECT EXISTS (
                SELECT FROM information_schema.tables
                WHERE table_name = %s
            )
            ".

(** [ORDER BY ordinal_position], rows of equal position kept in catalog
    order. *)
Fixpoint insert_by_position (r : CatalogColumn) (l : list CatalogColumn)
  : list CatalogColumn :=
  match l with
  | [] => [r]
  | x :: l' =>
      if (ordinal_position r <=? ordinal_position x)%Z
      then r :: x :: l'
      else x :: insert_by_position r l'
  end.

Definition order_by_position (l : list CatalogColumn) : list CatalogColumn :=
  foldr insert_by_position [] l.

(** The rows the introspection query yields for [name]. *)
Definition select_columns (db : Catalog) (name : string) : list ColumnRow :=
  selected <$>
    order_by_position
      (filter (fun r => table_name r = name) (information_schema_columns db)).

Definition select_exists (db : Catalog) (name : string) : bool :=
  bool_decide (name ∈ information_schema_tables db).

(** Every column row of the catalog belongs to a listed table. *)
Definition catalog_consistent (db : Catalog) : Prop :=
  forall r, r ∈ information_schema_columns db ->
            table_name r ∈ information_schema_tables db.

(** [cursor.execute(sql, params)]. *)
Definition execute (sql : string) (params : list string) (c : Cursor) : Cursor :=
  if decide (sql = columns_query) then
    {| database := database c; engine := engine c;
       executed := executed c ++ [(sql, params)];
       fetched := match params with
                  | [name] => ColumnRows (select_columns (database c) name)
                  | _ => NoResult
                  end |}
  else if decide (sql = tables_query) then
    {| database := database c; engine := engine c;
       executed := executed c ++ [(sql, params)];
       fetched := match params with
                  | [name] => ExistsRow (select_exists (database c) name)
                  | _ => NoResult
                  end |}
  else
    {| database := engine c sql (database c); engine := engine c;
       executed := executed c ++ [(sql, params)];
       fetched := NoResult |}.

(** [cursor.fetchall()]: the rows not fetched yet; none are left after.
    The adapter only calls it right after the columns query. *)
Definition fetchall (c : Cursor) : list ColumnRow * Cursor :=
  match fetched c with
  | ColumnRows rows =>
      (rows, {| database := database c; engine := engine c;
                executed := executed c; fetched := ColumnRows [] |})
  | _ => ([], c)
  end.

(** [cursor.fetchone()[0]] on the one-row result of [tables_query]; the
    adapter only calls it right after that query. *)
Definition fetchone_0 (c : Cursor) : bool * Cursor :=
  match fetched c with
  | ExistsRow b =>
      (b, {| database := database c; engine := engine c;
             executed := executed c; fetched := NoResult |})
  | _ => (false, c)
  end.

(** ** PostgreSQLAdapter *)

(** An entry of the mapping returned by [get_current_schema]: the
    dictionary with the keys ['name'], ['type'], ['notnull'] and
    ['dflt_value']. *)
Module ColumnInfo.
Record t : Type := {
  name : string;
  type : string;
  notnull : Z;
  dflt_value : option string }.
End ColumnInfo.

Module PostgreSQLAdapter.

(** The items of the dictionary display returned by [type_map], in the
    order they are written. *)
Definition type_map_items : list (logical_type * string) :=
  [ (py_str, "VARCHAR");
    (py_int, "BIGINT");
    (py_float, "DOUBLE PRECISION");
    (py_bool, "BOOLEAN");
    (py_bytes, "BYTEA");
    (py_Decimal, "NUMERIC");
    (py_date, "DATE");
    (py_datetime, "TIMESTAMP");
    (py_time, "TIME") ].

Definition type_map : gmap logical_type string := dict_items type_map_items.

(** The dictionary stored for one fetched row. *)
Definition column_info (row : ColumnRow) : ColumnInfo.t :=
  {| ColumnInfo.name := column_name row;
     ColumnInfo.type := data_type row;
     ColumnInfo.notnull := if decide (is_nullable row = "NO") then 1 else 0;
     ColumnInfo.dflt_value := column_default row |}.

(** The loop over the fetched rows: [schema[row['column_name']] = {...}]. *)
Definition schema_of_rows (rows : list ColumnRow) : gmap string ColumnInfo.t :=
  foldl (fun schema row => <[column_name row := column_info row]> schema) ∅ rows.

Definition get_current_schema (cursor : Cursor) (table_name : string)
  : gmap string ColumnInfo.t * Cursor :=
  let cursor := execute columns_query [table_name] cursor in
  let '(rows, cursor) := fetchall cursor in
  (schema_of_rows rows, cursor).

Definition supports_drop_column : bool := true.

Definition get_autoincrement_syntax : string := "SERIAL".

Definition _table_exists (cursor : Cursor) (table_name : string) : bool * Cursor :=
  let cursor := execute tables_query [table_name] cursor in
  fetchone_0 cursor.

(** The f-string of [_drop_columns]. *)
Definition drop_column_sql (table : Table) (col_name : string) : string :=
  "ALTER TABLE " +:+ sql_name table +:+ " DROP COLUMN " +:+ col_name.

(** The loop iterates over the set in the order [elements] lists it. *)
Definition _drop_columns (cursor : Cursor) (table : Table) (columns : gset string)
  : list string * Cursor :=
  foldl
    (fun '(migrations, cursor) col_name =>
       let sql := drop_column_sql table col_name in
       let cursor := execute sql [] cursor in
       (migrations ++ [sql], cursor))
    ([], cursor) (elements columns).

End PostgreSQLAdapter.

(** ** The adapter interface *)

(** Modelled from the spec: the Adapter capability set of section 4.1,
    the base class [DatabaseAdapter].  Its module is not among the
    sources; the operations are the ones [PostgreSQLAdapter] overrides,
    with the rebuild fallback the spec adds. *)
Module DatabaseAdapter.
Record t : Type := {
  type_map : gmap logical_type string;
  get_current_schema : Cursor -> string -> gmap string ColumnInfo.t * Cursor;
  table_exists : Cursor -> string -> bool * Cursor;
  supports_drop_column : bool;
  get_autoincrement_syntax : string;
  drop_columns : Cursor -> Table -> gset string -> list string * Cursor;
  rebuild_without_columns : Cursor -> Table -> gset string -> list string * Cursor }.
End DatabaseAdapter.

(** [PostgreSQLAdapter] as an adapter.  It does not define the rebuild
    fallback; the one it inherits is a parameter. *)
Definition postgres
    (rebuild : Cursor -> Table -> gset string -> list string * Cursor)
  : DatabaseAdapter.t :=
  {| DatabaseAdapter.type_map := PostgreSQLAdapter.type_map;
     DatabaseAdapter.get_current_schema := PostgreSQLAdapter.get_current_schema;
     DatabaseAdapter.table_exists := PostgreSQLAdapter._table_exists;
     DatabaseAdapter.supports_drop_column := PostgreSQLAdapter.supports_drop_column;
     DatabaseAdapter.get_autoincrement_syntax :=
       PostgreSQLAdapter.get_autoincrement_syntax;
     DatabaseAdapter.drop_columns := PostgreSQLAdapter._drop_columns;
     DatabaseAdapter.rebuild_without_columns := rebuild |}.

(** ** The Schema Synchronizer *)

(** Modelled from the spec: the Schema Synchronizer of section 4.2, whose
    module is not among the sources.  The steps are the five of the
    spec's algorithm; the text of the CREATE and ADD COLUMN statements
    is a rendering of the column descriptors. *)
Module SchemaSynchronizer.

Definition sql_literal (v : value) : string :=
  match v with
  | VNull => "NULL"
  | VInt z => pretty z
  | VText s => "'" +:+ s +:+ "'"
  | VBool b => if b then "TRUE" else "FALSE"
  end.

(** What the model expects to observe for a column. *)
Definition expected_notnull (col : Column) : Z :=
  if col_nullable col then 0 else 1.

Definition expected_default (col : Column) : option string :=
  sql_literal <$> col_default col.

Definition agrees (col : Column) (info : ColumnInfo.t) : Prop :=
  ColumnInfo.notnull info = expected_notnull col
  /\ ColumnInfo.dflt_value info = expected_default col.

#[global] Instance agrees_dec col info : Decision (agrees col info).
Proof. unfold agrees. apply _. Defined.

(** Step 2: the three sets of the diff. *)
Definition to_add (t : Table) (live : gmap string ColumnInfo.t) : list Column :=
  filter (fun col => live !! col_name col = None) (columns t).

Definition to_drop (t : Table) (live : gmap string ColumnInfo.t) : gset string :=
  dom live ∖ list_to_set (column_names t).

Definition needs_alter (live : gmap string ColumnInfo.t) (col : Column) : bool :=
  match live !! col_name col with
  | Some info => bool_decide (~ agrees col info)
  | None => false
  end.

Definition to_alter (t : Table) (live : gmap string ColumnInfo.t) : list Column :=
  filter (fun col => needs_alter live col = true) (columns t).

(** The dialect type of a column; a missing mapping is refused when the
    adapter is constructed, so the lookup finds one. *)
Definition dialect_type (a : DatabaseAdapter.t) (col : Column) : string :=
  default "" (DatabaseAdapter.type_map a !! col_type col).

Definition column_definition (a : DatabaseAdapter.t) (col : Column) : string :=
  col_name col +:+ " " +:+
  (if auto_generated col
   then DatabaseAdapter.get_autoincrement_syntax a +:+ " PRIMARY KEY"
   else
     dialect_type a col
     +:+ (if col_primary_key col then " PRIMARY KEY" else "")
     +:+ (if col_nullable col then "" else " NOT NULL")
     +:+ match col_default col with
         | Some v => " DEFAULT " +:+ sql_literal v
         | None => ""
         end).

Definition create_table_sql (a : DatabaseAdapter.t) (t : Table) : string :=
  "CREATE TABLE " +:+ sql_name t +:+ " ("
  +:+ String.concat ", " (column_definition a <$> columns t) +:+ ")".

Definition add_column_sql (a : DatabaseAdapter.t) (t : Table) (col : Column)
  : string :=
  "ALTER TABLE " +:+ sql_name t +:+ " ADD COLUMN " +:+ column_definition a col.

(** Step 3: one ADD COLUMN per entry, each executed on its own. *)
Definition add_columns (a : DatabaseAdapter.t) (cursor : Cursor) (t : Table)
    (cols : list Column) : list string * Cursor :=
  foldl
    (fun '(statements, cursor) col =>
       let sql := add_column_sql a t col in
       (statements ++ [sql], execute sql [] cursor))
    ([], cursor) cols.

(** Step 4: native drop where the adapter supports it, the rebuild
    fallback otherwise; nothing when there is nothing to drop. *)
Definition drop (a : DatabaseAdapter.t) (cursor : Cursor) (t : Table)
    (cols : gset string) : list string * Cursor :=
  if decide (cols = ∅) then ([], cursor)
  else if DatabaseAdapter.supports_drop_column a
       then DatabaseAdapter.drop_columns a cursor t cols
       else DatabaseAdapter.rebuild_without_columns a cursor t cols.

(** What one run reports: the Migration Plan (the statements executed,
    in order) and the names of the columns left as unresolved drift. *)
Record Outcome : Type := {
  plan : list string;
  unresolved_drift : list string }.

Definition synchronize (a : DatabaseAdapter.t) (cursor : Cursor) (t : Table)
  : Outcome * Cursor :=
  let '(present, cursor) := DatabaseAdapter.table_exists a cursor (sql_name t) in
  if negb present then
    let sql := create_table_sql a t in
    ({| plan := [sql]; unresolved_drift := [] |}, execute sql [] cursor)
  else
    let '(live, cursor) := DatabaseAdapter.get_current_schema a cursor (sql_name t) in
    let '(added, cursor) := add_columns a cursor t (to_add t live) in
    let '(dropped, cursor) := drop a cursor t (to_drop t live) in
    ({| plan := added ++ dropped;
        unresolved_drift := col_name <$> to_alter t live |}, cursor).

(** The live schema matches the model: the same column names, and for
    every declared column the observed notnull and default agree. *)
Definition schema_matches (t : Table) (live : gmap string ColumnInfo.t) : Prop :=
  dom live = list_to_set (column_names t)
  /\ forall col info,
       col ∈ columns t -> live !! col_name col = Some info -> agrees col info.

(** What the synchronizer learns from the adapter about a table: whether
    it exists and, when it does, its live schema. *)
Definition introspect (a : DatabaseAdapter.t) (cursor : Cursor) (name : string)
  : bool * gmap string ColumnInfo.t * Cursor :=
  let '(present, cursor) := DatabaseAdapter.table_exists a cursor name in
  if negb present then (false, ∅, cursor)
  else
    let '(live, cursor) := DatabaseAdapter.get_current_schema a cursor name in
    (true, live, cursor).

(** Introspecting again right after an introspection reports the same. *)
Definition introspection_repeatable (a : DatabaseAdapter.t) : Prop :=
  forall cursor name,
    (introspect a (introspect a cursor name).2 name).1
    = (introspect a cursor name).1.

End SchemaSynchronizer.

(** ** The Trigger Stack *)

(** Modelled from the spec: the Trigger Stack of section 4.4 and the
    scoped guard [in_triggerstack] that the package exports; the module
    that defines them is not among the sources.  Following the design
    notes, the stack is the set of active keys. *)
Module TriggerStack.

Inductive operation : Type := op_insert | op_update | op_delete.

#[global] Instance operation_eq_dec : EqDecision operation.
Proof. solve_decision. Defined.

Definition operation_code (o : operation) : nat :=
  match o with op_insert => 0 | op_update => 1 | op_delete => 2 end.

Definition operation_of_code (n : nat) : operation :=
  match n with 0 => op_insert | 1 => op_update | _ => op_delete end.

#[global] Instance operation_countable : Countable operation.
Proof.
  apply (inj_countable' operation_code operation_of_code).
  intros o. destruct o; reflexivity.
Defined.

(** (table name, operation kind, record key) *)
Definition triple : Type := string * operation * value.

Inductive pushed : Type := Success | AlreadyActive.

Definition is_active (k : triple) (stack : gset triple) : bool :=
  bool_decide (k ∈ stack).

Definition push (k : triple) (stack : gset triple) : pushed * gset triple :=
  if decide (k ∈ stack) then (AlreadyActive, stack)
  else (Success, {[k]} ∪ stack).

Definition pop (k : triple) (stack : gset triple) : gset triple :=
  stack ∖ {[k]}.

(** How a guarded section ended. *)
Inductive ended : Type := Returned | Raised.

(** The guard: push, run the hook unless the triple was already active,
    and pop on every exit path of a section that pushed. *)
Definition in_triggerstack {S : Type} (k : triple)
    (hook : gset triple * S -> ended * (gset triple * S))
    (st : gset triple * S) : option ended * (gset triple * S) :=
  match push k st.1 with
  | (AlreadyActive, _) => (None, st)
  | (Success, stack) =>
      let '(e, (stack, s)) := hook (stack, st.2) in
      (Some e, (pop k stack, s))
  end.

(** A CRUD call tree: the operation on a triple, the CRUD calls its hook
    makes in order, and whether the hook then raises. *)
Inductive call : Type :=
  | Call (k : triple) (hook : list call) (raises : bool).

Inductive event : Type :=
  | HookRan (k : triple)
  | Mutated (k : triple).

(** One CRUD operation: the hook runs inside the guard, and the mutation
    follows unless the hook raised.  The events are logged oldest first. *)
Fixpoint run (c : call) (st : gset triple * list event)
  : ended * (gset triple * list event) :=
  match c with
  | Call k hook raises =>
      let body (st : gset triple * list event) :=
        let '(e, st) :=
          (fix run_all (cs : list call) (st : gset triple * list event) :=
             match cs with
             | [] => (Returned, st)
             | c :: cs =>
                 match run c st with
                 | (Raised, st) => (Raised, st)
                 | (Returned, st) => run_all cs st
                 end
             end) hook (st.1, st.2 ++ [HookRan k]) in
        match e with
        | Raised => (Raised, st)
        | Returned => if raises then (Raised, st) else (Returned, st)
        end in
      match in_triggerstack k body st with
      | (Some Raised, st) => (Raised, st)
      | (_, st) => (Returned, (st.1, st.2 ++ [Mutated k]))
      end
  end.

Definition run_all : list call -> gset triple * list event
                     -> ended * (gset triple * list event) :=
  fix run_all (cs : list call) (st : gset triple * list event) :=
    match cs with
    | [] => (Returned, st)
    | c :: cs =>
        match run c st with
        | (Raised, st) => (Raised, st)
        | (Returned, st) => run_all cs st
        end
    end.

End TriggerStack.

(** ** The Table / CRUD engine *)

(** Modelled from the spec: the per-table CRUD contract of section 4.3;
    the module that implements it is not among the sources.  The stored
    state of a table is the list of its rows in insertion order, a row
    being a mapping from column name to value.  The functions give the
    mutation itself, for a table with no hook registered. *)
Module CRUD.

Inductive error : Type :=
  | StorageUnavailable
  | CapabilityError
  | NotFound
  | SchemaDriftUnresolved
  | MigrationFailed
  | InvalidRecord
  | IntegrityError.

Inductive result (A : Type) : Type :=
  | Ok (a : A)
  | Err (e : error).
Arguments Ok {A} a.
Arguments Err {A} e.

(** The primary key value of every stored row. *)
Definition keys (t : Table) (rows : list (gmap string value)) : list (option value) :=
  (fun r : gmap string value => r !! pkey t) <$> rows.

(** Every stored row has a key and no two rows share one. *)
Definition well_formed (t : Table) (rows : list (gmap string value)) : Prop :=
  NoDup (keys t rows) /\ None ∉ keys t rows.

Definition get (t : Table) (rows : list (gmap string value)) (key : value)
  : result (gmap string value) :=
  match filter (fun r : gmap string value => r !! pkey t = Some key) rows with
  | r :: _ => Ok r
  | [] => Err NotFound
  end.

(** [list()] with no filter: every row, in insertion order. *)
Definition list_rows (t : Table) (rows : list (gmap string value))
  : list (gmap string value) := rows.

(** A column is satisfied by a record that gives it a value, by a null
    where the column is nullable, and by nothing where the column is
    nullable, has a default or generates its own value. *)
Definition column_ok (record : gmap string value) (col : Column) : bool :=
  match record !! col_name col with
  | Some VNull => col_nullable col
  | Some _ => true
  | None => col_nullable col || bool_decide (is_Some (col_default col))
            || auto_generated col
  end.

Definition valid_record (t : Table) (record : gmap string value) : bool :=
  forallb (column_ok record) (columns t).

Definition pkey_auto (t : Table) : bool :=
  existsb (fun col => bool_decide (col_name col = pkey t) && auto_generated col)
    (columns t).

(** An auto-generated key is one more than the largest integer key. *)
Definition max_key (t : Table) (rows : list (gmap string value)) : Z :=
  foldr (fun (r : gmap string value) m =>
           match r !! pkey t with
           | Some (VInt z) => Z.max z m
           | _ => m
           end) 0%Z rows.

Definition key_for (t : Table) (rows : list (gmap string value))
    (record : gmap string value) : option value :=
  match record !! pkey t with
  | Some VNull => None
  | Some v => Some v
  | None => if pkey_auto t then Some (VInt (1 + max_key t rows)) else None
  end.

Definition stored_value (record : gmap string value) (col : Column) : value :=
  match record !! col_name col with
  | Some v => v
  | None => default VNull (col_default col)
  end.

(** The row stored for a record: a value for every declared column, and
    the key in the primary key column. *)
Definition new_row (t : Table) (record : gmap string value) (key : value)
  : gmap string value :=
  <[pkey t := key]>
    (dict_items ((fun col => (col_name col, stored_value record col)) <$> columns t)).

Definition insert (t : Table) (rows : list (gmap string value))
    (record : gmap string value) : result (value * list (gmap string value)) :=
  if valid_record t record then
    match key_for t rows record with
    | None => Err InvalidRecord
    | Some key =>
        if decide (Some key ∈ keys t rows) then Err IntegrityError
        else Ok (key, rows ++ [new_row t record key])
    end
  else Err InvalidRecord.

Definition delete (t : Table) (rows : list (gmap string value)) (key : value)
  : result (list (gmap string value)) :=
  if decide (Some key ∈ keys t rows)
  then Ok (filter (fun r : gmap string value => r !! pkey t <> Some key) rows)
  else Err NotFound.

(** [delete] given a record: the row with the record's key. *)
Definition delete_record (t : Table) (rows : list (gmap string value))
    (record : gmap string value) : result (list (gmap string value)) :=
  match record !! pkey t with
  | Some key => delete t rows key
  | None => Err NotFound
  end.

(** The states of a table: what inserts and deletes that succeed make of
    the empty table. *)
Inductive reachable (t : Table) : list (gmap string value) -> Prop :=
  | reach_empty : reachable t []
  | reach_insert rows record key rows' :
      reachable t rows ->
      insert t rows record = Ok (key, rows') ->
      reachable t rows'
  | reach_delete rows key rows' :
      reachable t rows ->
      delete t rows key = Ok rows' ->
      reachable t rows'.

(** The table declares its primary key column, and declares it as a
    column that cannot be null and has no default: a key is supplied or
    generated. *)
Definition primary_key_declared (t : Table) : Prop :=
  exists col, col ∈ columns t /\ col_name col = pkey t
              /\ col_nullable col = false /\ col_default col = None.

End CRUD.

(** ** DbConfig: the register of database connections *)

(** A JSON document, as [json.load] returns it and [json.dump] takes it. *)
Inductive json : Type :=
  | JNull
  | JBool (b : bool)
  | JNumber (z : Z)
  | JString (s : string)
  | JArray (items : list json)
  | JObject (members : list (string * json)).

(** The directory [~/.genro/db] and the file [register.json] in it.  The
    file is represented by the document it holds: [json.dump] followed by
    [json.load] gives back a dictionary with string keys unchanged.  The
    register is a [dict[str, Any]], so the document is an object.  The
    finite map holds the entries of the document, not the order of its
    keys: properties are stated on lookups and on the set of keys. *)
Record FileSystem : Type := {
  db_dir_exists : bool;
  register_file : option (gmap string json) }.

Module DbConfig.

Definition ensure_directories (fs : FileSystem) : FileSystem :=
  {| db_dir_exists := true; register_file := register_file fs |}.

Definition load_register (fs : FileSystem) : gmap string json :=
  match register_file fs with
  | None => ∅
  | Some register => register
  end.

Definition save_register (register : gmap string json) (fs : FileSystem)
  : FileSystem :=
  let fs := ensure_directories fs in
  {| db_dir_exists := db_dir_exists fs; register_file := Some register |}.

Definition add (name connection_string : string) (fs : FileSystem) : FileSystem :=
  let register := load_register fs in
  let register :=
    <[name := JObject [("connection_string", JString connection_string)]]> register in
  save_register register fs.

Definition remove (name : string) (fs : FileSystem) : bool * FileSystem :=
  let register := load_register fs in
  if decide (name ∉ dom register) then (false, fs)
  else
    let register := delete name register in
    (true, save_register register fs).

Definition list_all (fs : FileSystem) : gmap string json := load_register fs.

(** [register.get(name)]: [None] when the name is not a key. *)
Definition get (name : string) (fs : FileSystem) : option json :=
  let register := load_register fs in
  register !! name.

End DbConfig.

(** The entry [add] stores for a connection string. *)
Definition connection_entry (connection_string : string) : json :=
  JObject [("connection_string", JString connection_string)].

(** Every entry of a register is one that [add] stores. *)
Definition well_shaped (register : gmap string json) : Prop :=
  forall name v, register !! name = Some v -> exists cs, v = connection_entry cs.

(** ** DbCommands: the handlers of [genro db] *)

(** The two output streams: the lines printed so far, oldest first. *)
Record Console : Type := {
  stdout : list string;
  stderr : list string }.

(** [print(line)] and [print(line, file=sys.stderr)]. *)
Definition print (line : string) (out : Console) : Console :=
  {| stdout := stdout out ++ [line]; stderr := stderr out |}.

Definition eprint (line : string) (out : Console) : Console :=
  {| stdout := stdout out; stderr := stderr out ++ [line] |}.

(** How a call ends: it returns, it leaves through [sys.exit(code)], or
    an exception nothing catches leaves it. *)
Inductive finish : Type :=
  | Completed
  | SysExit (code : Z)
  | Uncaught (message : string).

(** The truth value Python gives a value read from the register. *)
Definition truthy (v : json) : bool :=
  match v with
  | JNull => false
  | JBool b => b
  | JNumber z => negb (z =? 0)%Z
  | JString s => negb (String.eqb s "")
  | JArray items => match items with [] => false | _ => true end
  | JObject members => match members with [] => false | _ => true end
  end.

(** The name of the Python type of a value, as error messages spell it. *)
Definition type_name (v : json) : string :=
  match v with
  | JNull => "NoneType"
  | JBool _ => "bool"
  | JNumber _ => "int"
  | JString _ => "str"
  | JArray _ => "list"
  | JObject _ => "dict"
  end.

(** The Python value of [register.get(name)]: [None] for a missing name,
    which is also what [json.load] gives for [null]. *)
Definition py_value (o : option json) : json := default JNull o.

(** [v.get(key, default)]: the member of a dictionary, the default where
    the key is missing, and for a value that is not a dictionary the
    message of the [AttributeError] (on the left). *)
Definition dict_get (v : json) (key : string) (dflt : json) : string + json :=
  match v with
  | JObject members => inr (default dflt (dict_items members !! key))
  | _ => inl ("'" +:+ type_name v +:+ "' object has no attribute 'get'")
  end.

(** The parsed arguments: [args.db_command] ([None] when no subcommand
    was given) and the other attributes the parser has set. *)
Record Namespace : Type := {
  db_command : option string;
  attributes : gmap string string }.

(** [args.<name>]: the attribute, or the message of the [AttributeError]. *)
Definition getattr (args : Namespace) (name : string) : string + string :=
  match attributes args !! name with
  | Some v => inr v
  | None => inl ("'Namespace' object has no attribute '" +:+ name +:+ "'")
  end.

(** The parsers [register_parser] builds: a positional argument, and a
    parser with its arguments and, where it has them, its subparsers
    (their title, the attribute the chosen name is stored in, their help
    and the parsers themselves). *)
Record Argument : Type := {
  arg_dest : string;
  arg_help : string }.

Inductive Parser : Type :=
  | MkParser (name : string) (help : string) (description : option string)
      (arguments : list Argument)
      (subparsers : option (string * string * string * list Parser)).

Definition parser_name (p : Parser) : string :=
  match p with MkParser name _ _ _ _ => name end.

Definition parser_arguments (p : Parser) : list Argument :=
  match p with MkParser _ _ _ arguments _ => arguments end.

(** The attribute that holds the chosen subcommand, and the subcommands. *)
Definition parser_dest (p : Parser) : option string :=
  match p with
  | MkParser _ _ _ _ (Some (_, dest, _, _)) => Some dest
  | MkParser _ _ _ _ None => None
  end.

Definition parser_commands (p : Parser) : list Parser :=
  match p with
  | MkParser _ _ _ _ (Some (_, _, _, parsers)) => parsers
  | MkParser _ _ _ _ None => []
  end.

Module DbCommands.
Section handlers.

(** What the handlers take from the interpreter: [repr] of a list or a
    dictionary, and [str(config.register_file)], the path of the
    register under the home directory. *)
Variable repr : json -> string.
Variable register_path : string.

(** [str(v)], as an f-string formats a value (the numbers of a
    document are its integers). *)
Definition str (v : json) : string :=
  match v with
  | JNull => "None"
  | JBool true => "True"
  | JBool false => "False"
  | JNumber z => pretty z
  | JString s => s
  | JArray _ | JObject _ => repr v
  end.

(** The parser of the [db] subcommand, built as [register_parser] builds
    it: the subparsers first, then [add], [list], [get] and [remove] with
    their arguments. *)
Definition db_parser : Parser :=
  let add_parser :=
    MkParser "add" "Register a new database connection" None
      [ {| arg_dest := "name"; arg_help := "Database identifier name" |};
        {| arg_dest := "connection_string";
           arg_help := "Database connection string or path" |} ] None in
  let list_parser :=
    MkParser "list" "List all registered databases" None [] None in
  let get_parser :=
    MkParser "get" "Get information about a specific database" None
      [ {| arg_dest := "name"; arg_help := "Database identifier name" |} ] None in
  let remove_parser :=
    MkParser "remove" "Remove a registered database" None
      [ {| arg_dest := "name";
           arg_help := "Database identifier name to remove" |} ] None in
  MkParser "db" "Manage database connections"
    (Some "Register and manage database connections for Genro applications")
    []
    (Some ("database commands", "db_command",
           "Use 'genro db <command> --help' for command-specific help",
           [add_parser; list_parser; get_parser; remove_parser])).

(** [register_parser(subparsers)]: the parsers registered so far, with
    the [db] parser added.  A name already taken is argparse's to
    refuse and is not modelled. *)
Definition register_parser (subparsers : list Parser) : list Parser :=
  subparsers ++ [db_parser].

(** [_add] on a file system whose operations do not raise: the register
    is read, written and the two lines are printed.  The [except] branch
    of the source, which prints the error and exits with status 1 when a
    file operation raises, has no run in this file system. *)
Definition _add (name connection_string : string) (w : FileSystem * Console)
  : finish * (FileSystem * Console) :=
  let '(fs, out) := w in
  let existing := py_value (DbConfig.get name fs) in
  let out :=
    if truthy existing
    then eprint ("Warning: Database '" +:+ name +:+ "' already exists. Updating...") out
    else out in
  let fs := DbConfig.add name connection_string fs in
  let out := print ("Database '" +:+ name +:+ "' registered successfully.") out in
  let out := print ("Configuration saved to: " +:+ register_path) out in
  (Completed, (fs, out)).

(** The loop of [_list] over the items: the exception that ended it, if
    one did, and what was printed. *)
Fixpoint list_items (items : list (string * json)) (out : Console)
  : option string * Console :=
  match items with
  | [] => (None, out)
  | (name, info) :: items =>
      let out := print ("  " +:+ name +:+ ":") out in
      match dict_get info "connection_string" (JString "N/A") with
      | inr v => list_items items (print ("    Connection: " +:+ str v) out)
      | inl e => (Some e, out)
      end
  end.

(** The register is kept as a finite map, which does not record the
    order of the keys in the file; the loop visits the items in the
    order [map_to_list] lists them. *)
Definition _list (w : FileSystem * Console) : finish * (FileSystem * Console) :=
  let '(fs, out) := w in
  let databases := DbConfig.list_all fs in
  if decide (databases = ∅) then
    let out := print "No databases registered." out in
    let out :=
      print "Use 'genro db add <name> <connection_string>' to register a database."
        out in
    (Completed, (fs, out))
  else
    let out :=
      print ("Registered databases (" +:+ pretty (size databases) +:+ "):") out in
    let out := print "" out in
    match list_items (map_to_list databases) out with
    | (None, out) => (Completed, (fs, out))
    | (Some e, out) =>
        (SysExit 1, (fs, eprint ("Error listing databases: " +:+ e) out))
    end.

Definition _get (name : string) (w : FileSystem * Console)
  : finish * (FileSystem * Console) :=
  let '(fs, out) := w in
  let db_info := py_value (DbConfig.get name fs) in
  if negb (truthy db_info) then
    let out := eprint ("Error: Database '" +:+ name +:+ "' not found.") out in
    let out := eprint "Use 'genro db list' to see registered databases." out in
    (SysExit 1, (fs, out))
  else
    let out := print ("Database: " +:+ name) out in
    match dict_get db_info "connection_string" (JString "N/A") with
    | inr v => (Completed, (fs, print ("Connection: " +:+ str v) out))
    | inl e =>
        (SysExit 1, (fs, eprint ("Error getting database info: " +:+ e) out))
    end.

Definition _remove (name : string) (w : FileSystem * Console)
  : finish * (FileSystem * Console) :=
  let '(fs, out) := w in
  let '(removed, fs) := DbConfig.remove name fs in
  if removed then
    (Completed, (fs, print ("Database '" +:+ name +:+ "' removed successfully.") out))
  else
    let out := eprint ("Error: Database '" +:+ name +:+ "' not found.") out in
    let out := eprint "Use 'genro db list' to see registered databases." out in
    (SysExit 1, (fs, out)).

Definition execute (args : Namespace) (w : FileSystem * Console)
  : finish * (FileSystem * Console) :=
  let '(fs, out) := w in
  match db_command args with
  | None | Some "" =>
      (SysExit 1,
       (fs, eprint "Error: No database command specified. Use 'genro db --help' for usage."
              out))
  | Some command =>
      if decide (command = "add") then
        match getattr args "name" with
        | inl e => (Uncaught e, w)
        | inr name =>
            match getattr args "connection_string" with
            | inl e => (Uncaught e, w)
            | inr connection_string => _add name connection_string w
            end
        end
      else if decide (command = "list") then _list w
      else if decide (command = "get") then
        match getattr args "name" with
        | inl e => (Uncaught e, w)
        | inr name => _get name w
        end
      else if decide (command = "remove") then
        match getattr args "name" with
        | inl e => (Uncaught e, w)
        | inr name => _remove name w
        end
      else
        (SysExit 1,
         (fs, eprint ("Error: Unknown command '" +:+ command +:+ "'") out))
  end.

(** One invocation of the tool after another on the same file system;
    each starts with empty output streams. *)
Definition invoke (fs : FileSystem) (args : Namespace) : FileSystem :=
  (execute args (fs, {| stdout := []; stderr := [] |})).2.1.

Definition invocations (fs : FileSystem) (commands : list Namespace) : FileSystem :=
  foldl invoke fs commands.

End handlers.
End DbCommands.

(** The file system before the tool has ever run, a namespace for each
    subcommand, and a register edited by hand. *)
Definition no_register : FileSystem :=
  {| db_dir_exists := false; register_file := None |}.

Definition no_output : Console := {| stdout := []; stderr := [] |}.

Definition args_add (name connection_string : string) : Namespace :=
  {| db_command := Some "add";
     attributes := <["connection_string" := connection_string]> {["name" := name]} |}.

Definition args_get (name : string) : Namespace :=
  {| db_command := Some "get"; attributes := {["name" := name]} |}.

Definition edited_register : FileSystem :=
  {| db_dir_exists := true;
     register_file :=
       Some (<["empty" := JObject []]> {["text" := JString "sqlite:///x.db"]}) |}.

(** The two lines [_list] prints for a name and its connection string. *)
Definition listed_lines (item : string * string) : list string :=
  ["  " +:+ item.1 +:+ ":"; "    Connection: " +:+ item.2].

(** An interpreter to run the handlers in: a [repr] and a register path. *)
Definition sample_repr (v : json) : string := "{...}".

Definition sample_path : string := "/home/user/.genro/db/register.json".

(** The parser declared for [get], an invocation with a command that is
    not declared, and a register with one connection. *)
Definition get_command : Parser :=
  MkParser "get" "Get information about a specific database" None
    [ {| arg_dest := "name"; arg_help := "Database identifier name" |} ] None.

Definition args_drop : Namespace :=
  {| db_command := Some "drop"; attributes := ∅ |}.

Definition main_registered : FileSystem :=
  DbConfig.add "main" "sqlite:///main.db" no_register.

(** ** The table of the scenario *)

(** The table [book] of the spec's scenario: [id] (integer, primary key,
    auto-generated), [title] (text, not null), [pages] (integer,
    nullable). *)
Definition book : Table :=
  {| sql_name := "book";
     columns :=
       [ {| col_name := "id"; col_type := py_int; col_nullable := false;
            col_default := None; col_primary_key := true |};
         {| col_name := "title"; col_type := py_str; col_nullable := false;
            col_default := None; col_primary_key := false |};
         {| col_name := "pages"; col_type := py_int; col_nullable := true;
            col_default := None; col_primary_key := false |} ];
     pkey := "id" |}.

(** The record [{title: "Dune", pages: 412}]. *)
Definition dune : gmap string value :=
  dict_items [("title", VText "Dune"); ("pages", VInt 412)].

(** A catalog in which [book] exists with these three columns. *)
Definition book_catalog : Catalog :=
  {| information_schema_tables := ["book"];
     information_schema_columns :=
       [ {| table_name := "book"; ordinal_position := 1;
            selected := {| column_name := "id"; data_type := "bigint";
                           is_nullable := "NO"; column_default := None |} |};
         {| table_name := "book"; ordinal_position := 2;
            selected := {| column_name := "title";
                           data_type := "character varying";
                           is_nullable := "NO"; column_default := None |} |};
         {| table_name := "book"; ordinal_position := 3;
            selected := {| column_name := "pages"; data_type := "bigint";
                           is_nullable := "YES"; column_default := None |} |} ] |}.

Definition book_cursor : Cursor :=
  {| database := book_catalog;
     engine := fun _ db => db;
     executed := [];
     fetched := NoResult |}.

(** A rebuild fallback to complete [postgres] with; PostgreSQL drops
    columns natively and never calls it. *)
Definition no_rebuild (cursor : Cursor) (t : Table) (cols : gset string)
  : list string * Cursor := ([], cursor).

(** What introspecting [book] through [book_cursor] reports and the
    cursor it leaves. *)
Definition book_live : gmap string ColumnInfo.t :=
  PostgreSQLAdapter.schema_of_rows (select_columns book_catalog "book").

Definition book_cursor_introspected : Cursor :=
  {| database := book_catalog;
     engine := fun _ db => db;
     executed := [(tables_query, ["book"]); (columns_query, ["book"])];
     fetched := ColumnRows [] |}.

Definition title_info : ColumnInfo.t :=
  {| ColumnInfo.name := "title";
     ColumnInfo.type := "character varying";
     ColumnInfo.notnull := 1;
     ColumnInfo.dflt_value := None |}.

(** A second record, with a key of its own, and a table holding both. *)
Definition emma : gmap string value :=
  dict_items [("id", VInt 2); ("title", VText "Emma"); ("pages", VNull)].

Definition two_books : list (gmap string value) :=
  [CRUD.new_row book dune (VInt 1); CRUD.new_row book emma (VInt 2)].

(** * Properties *)

Section dict_items_facts.
Context {K V : Type} `{Countable K}.

Lemma dict_items_snoc (items : list (K * V)) (k : K) (v : V) :
  dict_items (items ++ [(k, v)]) = <[k := v]> (dict_items items).
Proof. unfold dict_items. rewrite foldl_app. reflexivity. Qed.

(** The value of a key that occurs once is the value of its item. *)
Lemma dict_items_lookup_NoDup (items : list (K * V)) (k : K) (v : V) :
  NoDup items.*1 -> (k, v) ∈ items -> dict_items items !! k = Some v.
Proof.
  induction items as [|[k' v'] items IH] using rev_ind; intros Hnd Hin.
  - set_solver.
  - rewrite dict_items_snoc. rewrite fmap_app in Hnd. simpl in Hnd.
    apply NoDup_app in Hnd as (Hnd & Hfresh & _).
    apply elem_of_app in Hin as [Hin|Hin].
    + assert (k ∈ items.*1) by (apply list_elem_of_fmap; exists (k, v); done).
      rewrite lookup_insert_ne; [by apply IH|].
      intros Heq. subst k'. apply (Hfresh k); set_solver.
    + apply list_elem_of_singleton in Hin. injection Hin as -> ->.
      apply lookup_insert_eq.
Qed.

Lemma dict_items_dom (items : list (K * V)) :
  dom (dict_items items) = list_to_set items.*1.
Proof.
  induction items as [|[k' v'] items IH] using rev_ind.
  - unfold dict_items. simpl. apply dom_empty_L.
  - rewrite dict_items_snoc, dom_insert_L, IH, fmap_app, list_to_set_app_L.
    simpl. set_solver.
Qed.
End dict_items_facts.

(** A filter that no element passes yields the empty list. *)
Lemma filter_none {A : Type} (P : A -> Prop) `{forall x, Decision (P x)}
    (l : list A) :
  (forall x, x ∈ l -> ~ P x) -> filter P l = [].
Proof.
  induction l as [|x l IH]; intros Hl; [done|].
  rewrite filter_cons_False by (apply Hl; left).
  apply IH. intros y Hy. apply Hl. by right.
Qed.

(** C2. [type_map] is total over the nine logical types: every logical
    type is the key of exactly one item of the dictionary display, the
    mapping holds that item's dialect type for it, and it has nine keys. *)
Theorem type_map_total (t : logical_type) :
  length (filter (fun kv => kv.1 = t) PostgreSQLAdapter.type_map_items) = 1
  /\ (exists s : string,
        PostgreSQLAdapter.type_map !! t = Some s
        /\ (t, s) ∈ PostgreSQLAdapter.type_map_items)
  /\ size PostgreSQLAdapter.type_map = 9.
Proof.
  assert (Hnd : NoDup PostgreSQLAdapter.type_map_items.*1).
  { apply (bool_decide_unpack _). vm_compute. exact I. }
  split; [destruct t; reflexivity|]. split.
  - assert (Hin : exists s, (t, s) ∈ PostgreSQLAdapter.type_map_items).
    { destruct t; eexists; unfold PostgreSQLAdapter.type_map_items;
        repeat first [apply list_elem_of_here | apply list_elem_of_further]. }
    destruct Hin as [s Hin]. exists s. split; [|exact Hin].
    by apply dict_items_lookup_NoDup.
  - rewrite <- size_dom. unfold PostgreSQLAdapter.type_map.
    rewrite dict_items_dom. rewrite size_list_to_set by exact Hnd.
    reflexivity.
Qed.


(** ** The cursor *)

Lemma execute_executed (sql : string) (params : list string) (c : Cursor) :
  executed (execute sql params c) = executed c ++ [(sql, params)].
Proof. unfold execute. repeat case_decide; reflexivity. Qed.

Lemma execute_engine (sql : string) (params : list string) (c : Cursor) :
  engine (execute sql params c) = engine c.
Proof. unfold execute. repeat case_decide; reflexivity. Qed.

Lemma execute_columns_query (name : string) (c : Cursor) :
  fetched (execute columns_query [name] c)
  = ColumnRows (select_columns (database c) name)
  /\ database (execute columns_query [name] c) = database c.
Proof. unfold execute. rewrite decide_True by reflexivity. split; reflexivity. Qed.

Lemma execute_tables_query (name : string) (c : Cursor) :
  fetched (execute tables_query [name] c)
  = ExistsRow (select_exists (database c) name)
  /\ database (execute tables_query [name] c) = database c.
Proof.
  unfold execute. rewrite decide_False by discriminate.
  rewrite decide_True by reflexivity. split; reflexivity.
Qed.

(** ** get_current_schema *)

(** The two introspection calls in full: what they return and the cursor
    they leave. *)
Lemma get_current_schema_eq (cursor : Cursor) (name : string) :
  PostgreSQLAdapter.get_current_schema cursor name
  = (PostgreSQLAdapter.schema_of_rows (select_columns (database cursor) name),
     {| database := database cursor; engine := engine cursor;
        executed := executed cursor ++ [(columns_query, [name])];
        fetched := ColumnRows [] |}).
Proof.
  unfold PostgreSQLAdapter.get_current_schema, fetchall, execute.
  rewrite decide_True by reflexivity. reflexivity.
Qed.

Lemma table_exists_eq (cursor : Cursor) (name : string) :
  PostgreSQLAdapter._table_exists cursor name
  = (select_exists (database cursor) name,
     {| database := database cursor; engine := engine cursor;
        executed := executed cursor ++ [(tables_query, [name])];
        fetched := NoResult |}).
Proof.
  unfold PostgreSQLAdapter._table_exists, fetchone_0, execute.
  rewrite decide_False by discriminate. rewrite decide_True by reflexivity.
  reflexivity.
Qed.

Lemma get_current_schema_rows (cursor : Cursor) (name : string) :
  (PostgreSQLAdapter.get_current_schema cursor name).1
  = PostgreSQLAdapter.schema_of_rows (select_columns (database cursor) name).
Proof. by rewrite get_current_schema_eq. Qed.

Lemma schema_of_rows_snoc (rows : list ColumnRow) (row : ColumnRow) :
  PostgreSQLAdapter.schema_of_rows (rows ++ [row])
  = <[column_name row := PostgreSQLAdapter.column_info row]>
      (PostgreSQLAdapter.schema_of_rows rows).
Proof. unfold PostgreSQLAdapter.schema_of_rows. by rewrite foldl_app. Qed.

(** An entry of the schema is the dictionary built for the last fetched
    row that has the entry's key as its column name. *)
Lemma schema_of_rows_lookup (rows : list ColumnRow) (key : string)
    (info : ColumnInfo.t) :
  PostgreSQLAdapter.schema_of_rows rows !! key = Some info ->
  exists before row after,
    rows = before ++ row :: after
    /\ column_name row = key
    /\ (key ∉ (column_name <$> after))
    /\ info = PostgreSQLAdapter.column_info row.
Proof.
  induction rows as [|last rows IH] using rev_ind; intros Hlook.
  - unfold PostgreSQLAdapter.schema_of_rows in Hlook. simpl in Hlook.
    by rewrite lookup_empty in Hlook.
  - rewrite schema_of_rows_snoc in Hlook.
    destruct (decide (column_name last = key)) as [Heq|Hne].
    + rewrite Heq, lookup_insert_eq in Hlook. injection Hlook as <-.
      exists rows, last, []. split; [done|]. split; [done|]. split; [|done].
      simpl. apply not_elem_of_nil.
    + rewrite lookup_insert_ne in Hlook by done.
      destruct (IH Hlook) as (before & row & after & -> & Hkey & Hlast & ->).
      exists before, row, (after ++ [last]).
      split; [by rewrite <- app_assoc|]. split; [done|]. split; [|done].
      rewrite fmap_app. simpl. intros Hin.
      apply elem_of_app in Hin as [Hin|Hin]; [done|].
      apply list_elem_of_singleton in Hin. congruence.
Qed.

(** C3. When the introspection query yields no rows for a table name, the
    schema returned for it is the empty mapping. *)
Theorem get_current_schema_no_rows (cursor : Cursor) (name : string) :
  select_columns (database cursor) name = [] ->
  (PostgreSQLAdapter.get_current_schema cursor name).1 = ∅.
Proof. intros Hrows. rewrite get_current_schema_rows, Hrows. reflexivity. Qed.

(** A table that [_table_exists] does not find has no column rows in a
    consistent catalog, so its schema is the empty mapping. *)
Lemma get_current_schema_missing_table (cursor : Cursor) (name : string) :
  catalog_consistent (database cursor) ->
  (PostgreSQLAdapter._table_exists cursor name).1 = false ->
  (PostgreSQLAdapter.get_current_schema
     (PostgreSQLAdapter._table_exists cursor name).2 name).1 = ∅.
Proof.
  intros Hcons. rewrite table_exists_eq. cbn [fst snd]. intros Hmissing.
  rewrite get_current_schema_rows. cbn [database].
  unfold select_exists in Hmissing. apply bool_decide_eq_false in Hmissing.
  unfold select_columns. rewrite filter_none; [done|].
  intros r Hr Hname. apply Hmissing. rewrite <- Hname. by apply Hcons.
Qed.

(** Both introspection calls only read: each passes its one query to
    [execute] with the table name as the only parameter and leaves the
    catalog as it was, and [_table_exists] returns whether the name is
    listed in [information_schema.tables]. *)
Lemma introspection_reads_only (cursor : Cursor) (name : string) :
  database (PostgreSQLAdapter.get_current_schema cursor name).2 = database cursor
  /\ executed (PostgreSQLAdapter.get_current_schema cursor name).2
     = executed cursor ++ [(columns_query, [name])]
  /\ database (PostgreSQLAdapter._table_exists cursor name).2 = database cursor
  /\ executed (PostgreSQLAdapter._table_exists cursor name).2
     = executed cursor ++ [(tables_query, [name])]
  /\ (PostgreSQLAdapter._table_exists cursor name).1
     = bool_decide (name ∈ information_schema_tables (database cursor)).
Proof. rewrite get_current_schema_eq, table_exists_eq. done. Qed.

(** C8. Every entry of a returned schema is the dictionary of a fetched
    row: its name is the key it is stored under, and its notnull field is
    1 when that row's is_nullable is the string NO and 0 otherwise. *)
Theorem get_current_schema_entry (cursor : Cursor) (tname key : string)
    (info : ColumnInfo.t) :
  (PostgreSQLAdapter.get_current_schema cursor tname).1 !! key = Some info ->
  ColumnInfo.name info = key
  /\ exists before row after,
       select_columns (database cursor) tname = before ++ row :: after
       /\ column_name row = key
       /\ (key ∉ (column_name <$> after))
       /\ ColumnInfo.type info = data_type row
       /\ ColumnInfo.dflt_value info = column_default row
       /\ (ColumnInfo.notnull info = 1%Z <-> is_nullable row = "NO")
       /\ (ColumnInfo.notnull info = 0%Z <-> is_nullable row <> "NO").
Proof.
  rewrite get_current_schema_rows. intros Hlook.
  destruct (schema_of_rows_lookup _ _ _ Hlook)
    as (before & row & after & Hrows & Hkey & Hlast & ->).
  split; [exact Hkey|].
  exists before, row, after.
  split; [exact Hrows|]. split; [exact Hkey|]. split; [exact Hlast|].
  split; [reflexivity|]. split; [reflexivity|].
  unfold PostgreSQLAdapter.column_info. cbn [ColumnInfo.notnull].
  destruct (decide (is_nullable row = "NO")) as [Hno|Hyes]; split; split;
    intros H; first [done | lia].
Qed.

(** ** _drop_columns *)

Lemma string_app_inj (p a b : string) : p +:+ a = p +:+ b -> a = b.
Proof. induction p as [|ch p IH]; simpl; intros Heq; [done|]. injection Heq. done. Qed.

Lemma drop_column_sql_inj (table : Table) :
  Inj (=) (=) (PostgreSQLAdapter.drop_column_sql table).
Proof.
  intros a b Heq. unfold PostgreSQLAdapter.drop_column_sql in Heq.
  do 3 apply string_app_inj in Heq. exact Heq.
Qed.

(** The loop of [_drop_columns] over any list of names: it returns the
    statements of the names in order and has executed exactly those. *)
Lemma drop_loop (table : Table) (names : list string) (done_ : list string)
    (cursor : Cursor) :
  let r :=
    foldl
      (fun '(migrations, cursor) col_name =>
         let sql := PostgreSQLAdapter.drop_column_sql table col_name in
         let cursor := execute sql [] cursor in
         (migrations ++ [sql], cursor))
      (done_, cursor) names in
  r.1 = done_ ++ (PostgreSQLAdapter.drop_column_sql table <$> names)
  /\ executed r.2
     = executed cursor
       ++ ((fun sql => (sql, [])) <$> (PostgreSQLAdapter.drop_column_sql table <$> names)).
Proof.
  revert done_ cursor. induction names as [|n names IH]; intros done_ cursor; simpl.
  - by rewrite !app_nil_r.
  - destruct (IH (done_ ++ [PostgreSQLAdapter.drop_column_sql table n])
                (execute (PostgreSQLAdapter.drop_column_sql table n) [] cursor))
      as [H1 H2].
    simpl in H1, H2. rewrite H1, H2, <- !app_assoc. done.
Qed.

(** C4. [_drop_columns] returns one DROP COLUMN statement per column of
    the set and no other statement, it has executed the statements it
    returns, in that order, and [supports_drop_column] is true. *)
Theorem drop_columns_one_per_column (cursor : Cursor) (table : Table)
    (cols : gset string) :
  let r := PostgreSQLAdapter._drop_columns cursor table cols in
  length r.1 = size cols
  /\ NoDup r.1
  /\ (forall col : string,
        col ∈ cols <-> PostgreSQLAdapter.drop_column_sql table col ∈ r.1)
  /\ (forall sql : string,
        sql ∈ r.1 <->
        exists col, col ∈ cols
          /\ sql = "ALTER TABLE " +:+ sql_name table +:+ " DROP COLUMN " +:+ col)
  /\ executed r.2 = executed cursor ++ ((fun sql => (sql, [])) <$> r.1)
  /\ PostgreSQLAdapter.supports_drop_column = true.
Proof.
  destruct (drop_loop table (elements cols) [] cursor) as [H1 H2].
  simpl in H1, H2. unfold PostgreSQLAdapter._drop_columns. simpl.
  rewrite H1, H2. clear H1 H2.
  pose proof (drop_column_sql_inj table) as Hinj.
  split; [by rewrite length_fmap|].
  split; [apply (NoDup_fmap_2 _), NoDup_elements|].
  split; [|split; [|done]].
  - intros col. rewrite (list_elem_of_fmap_inj _), elem_of_elements. done.
  - intros sql. rewrite list_elem_of_fmap. setoid_rewrite elem_of_elements.
    split; intros (col & ? & ?); exists col; done.
Qed.

(** With no column to drop nothing is executed and nothing returned. *)
Lemma drop_columns_empty (cursor : Cursor) (table : Table) :
  PostgreSQLAdapter._drop_columns cursor table ∅ = ([], cursor).
Proof.
  unfold PostgreSQLAdapter._drop_columns. by rewrite elements_empty.
Qed.

(** ** DbConfig *)

Lemma load_save_register (register : gmap string json) (fs : FileSystem) :
  DbConfig.load_register (DbConfig.save_register register fs) = register.
Proof. reflexivity. Qed.

(** C9. After [add name connection_string], [get name] returns the
    one-member object holding the connection string, and [get] of every
    other name returns what it returned before. *)
Theorem add_get_round_trip (name connection_string : string) (fs : FileSystem) :
  DbConfig.get name (DbConfig.add name connection_string fs)
  = Some (JObject [("connection_string", JString connection_string)])
  /\ (forall other : string,
        other <> name ->
        DbConfig.get other (DbConfig.add name connection_string fs)
        = DbConfig.get other fs)
  /\ DbConfig.list_all (DbConfig.add name connection_string fs)
     = <[name := JObject [("connection_string", JString connection_string)]]>
         (DbConfig.list_all fs).
Proof.
  unfold DbConfig.get, DbConfig.add, DbConfig.list_all.
  rewrite load_save_register. split; [apply lookup_insert_eq|].
  split; [|reflexivity].
  intros other Hne. by apply lookup_insert_ne.
Qed.

(** The two paths of [remove]. *)
Lemma remove_absent_or_present (name : string) (fs : FileSystem) :
  ((name ∉ dom (DbConfig.load_register fs))
   /\ DbConfig.remove name fs = (false, fs))
  \/ (name ∈ dom (DbConfig.load_register fs)
      /\ DbConfig.remove name fs
         = (true, DbConfig.save_register
                    (delete name (DbConfig.load_register fs)) fs)).
Proof.
  unfold DbConfig.remove.
  destruct (decide (name ∉ dom (DbConfig.load_register fs))) as [Habs|Hin].
  - by left.
  - right. split; [|done]. by apply dec_stable.
Qed.

(** C10. [remove name] of a registered name returns true and stores the
    register without that name, every other entry unchanged; of a name
    that is not registered it returns false and leaves the register file
    and its directory as they were. *)
Theorem remove_registered_or_not (name : string) (fs : FileSystem) :
  (name ∈ dom (DbConfig.load_register fs) ->
     (DbConfig.remove name fs).1 = true
     /\ DbConfig.get name (DbConfig.remove name fs).2 = None
     /\ (forall other : string,
           other <> name ->
           DbConfig.get other (DbConfig.remove name fs).2 = DbConfig.get other fs)
     /\ register_file (DbConfig.remove name fs).2
        = Some (delete name (DbConfig.load_register fs)))
  /\ (name ∉ dom (DbConfig.load_register fs) ->
        DbConfig.remove name fs = (false, fs)).
Proof.
  unfold DbConfig.remove. split; intros Hin.
  - rewrite decide_False by (intros Hnot; exact (Hnot Hin)). simpl.
    unfold DbConfig.get. rewrite load_save_register.
    split; [done|]. split; [apply lookup_delete_eq|]. split; [|done].
    intros other Hne. by apply lookup_delete_ne.
  - by rewrite decide_True.
Qed.

(** Adding a name again replaces its connection string: the file system
    is as if only the second [add] had been made. *)
Lemma add_overwrites (name first second : string) (fs : FileSystem) :
  DbConfig.add name second (DbConfig.add name first fs)
  = DbConfig.add name second fs.
Proof.
  unfold DbConfig.add. rewrite load_save_register.
  unfold DbConfig.save_register, DbConfig.ensure_directories. simpl.
  by rewrite insert_insert_eq.
Qed.

(** A name that has been removed is not registered: removing it again
    returns false and changes nothing. *)
Lemma remove_twice (name : string) (fs : FileSystem) :
  DbConfig.remove name (DbConfig.remove name fs).2
  = (false, (DbConfig.remove name fs).2).
Proof.
  destruct (remove_absent_or_present name fs) as [[Habs Heq]|[Hin Heq]];
    rewrite Heq; simpl.
  - unfold DbConfig.remove. by rewrite decide_True.
  - unfold DbConfig.remove at 1. rewrite load_save_register.
    rewrite decide_True; [done|]. rewrite dom_delete. set_solver.
Qed.

(** ** The Trigger Stack *)

Section trigger_stack.
Import TriggerStack.

(** Induction over call trees, with the hypothesis for every call a
    hook makes. *)
Lemma call_tree_ind (P : call -> Prop) :
  (forall k hook raises, Forall P hook -> P (Call k hook raises)) ->
  forall c, P c.
Proof.
  intros step. fix IH 1. intros [k hook raises]. apply step.
  induction hook as [|c hook IHhook]; constructor; [apply IH | exact IHhook].
Qed.

Lemma run_Call (k : triple) (hook : list call) (raises : bool)
    (st : gset triple * list event) :
  run (Call k hook raises) st
  = match
      in_triggerstack k
        (fun st =>
           let '(e, st) := run_all hook (st.1, st.2 ++ [HookRan k]) in
           match e with
           | Raised => (Raised, st)
           | Returned => if raises then (Raised, st) else (Returned, st)
           end) st
    with
    | (Some Raised, st) => (Raised, st)
    | (_, st) => (Returned, (st.1, st.2 ++ [Mutated k]))
    end.
Proof. reflexivity. Qed.

Lemma push_inactive (k : triple) (stack : gset triple) :
  k ∉ stack -> push k stack = (Success, {[k]} ∪ stack).
Proof. intros Hk. unfold push. by rewrite decide_False. Qed.

Lemma push_active (k : triple) (stack : gset triple) :
  k ∈ stack -> push k stack = (AlreadyActive, stack).
Proof. intros Hk. unfold push. by rewrite decide_True. Qed.

Lemma pop_inactive (k : triple) (stack : gset triple) : k ∉ pop k stack.
Proof. unfold pop. set_solver. Qed.

Lemma pop_push (k : triple) (stack : gset triple) :
  k ∉ stack -> pop k ({[k]} ∪ stack) = stack.
Proof. unfold pop. set_solver. Qed.

(** A guarded section that pushed leaves its triple inactive, whatever
    the hook did and however it ended. *)
Lemma in_triggerstack_releases {S : Type} (k : triple)
    (hook : gset triple * S -> ended * (gset triple * S))
    (stack : gset triple) (s : S) :
  k ∉ stack -> k ∉ (in_triggerstack k hook (stack, s)).2.1.
Proof.
  intros Hk. unfold in_triggerstack. simpl. rewrite push_inactive by done.
  destruct (hook ({[k]} ∪ stack, s)) as [e [stack' s']]. simpl.
  apply pop_inactive.
Qed.

Lemma in_triggerstack_suppressed {S : Type} (k : triple)
    (hook : gset triple * S -> ended * (gset triple * S))
    (stack : gset triple) (s : S) :
  k ∈ stack -> in_triggerstack k hook (stack, s) = (None, (stack, s)).
Proof. intros Hk. unfold in_triggerstack. simpl. by rewrite push_active. Qed.

Lemma run_all_restores (cs : list call) :
  Forall (fun c => forall st, (run c st).2.1 = st.1) cs ->
  forall st, (run_all cs st).2.1 = st.1.
Proof.
  induction 1 as [|c cs Hc _ IH]; intros st; simpl; [done|].
  specialize (Hc st). destruct (run c st) as [[] st']; simpl in *.
  - by rewrite IH.
  - done.
Qed.

(** A call tree leaves the stack as it found it. *)
Lemma run_restores (c : call) (st : gset triple * list event) :
  (run c st).2.1 = st.1.
Proof.
  revert st. induction c as [k hook raises IH] using call_tree_ind.
  intros [stack events]. rewrite run_Call.
  destruct (decide (k ∈ stack)) as [Hk|Hk].
  - by rewrite in_triggerstack_suppressed.
  - unfold in_triggerstack. simpl. rewrite push_inactive by done.
    pose proof (run_all_restores hook IH
                  ({[k]} ∪ stack, events ++ [HookRan k])) as Hall.
    destruct (run_all hook ({[k]} ∪ stack, events ++ [HookRan k]))
      as [e [stack' events']]. simpl in Hall. subst stack'.
    destruct e, raises; simpl; by apply pop_push.
Qed.

Lemma run_all_app_events (k : triple) (cs : list call) :
  Forall (fun c => forall st, k ∈ st.1 ->
            exists added, (run c st).2.2 = st.2 ++ added /\ HookRan k ∉ added) cs ->
  forall st, k ∈ st.1 ->
    exists added, (run_all cs st).2.2 = st.2 ++ added /\ HookRan k ∉ added.
Proof.
  induction 1 as [|c cs Hc Hcs IH]; intros st Hk; simpl.
  - exists []. split; [by rewrite app_nil_r | apply not_elem_of_nil].
  - destruct (Hc st Hk) as (added & Hadded & Hnot).
    pose proof (run_restores c st) as Hstack.
    destruct (run c st) as [[] st']; simpl in *.
    + destruct (IH st') as (added' & Hadded' & Hnot'); [by rewrite Hstack|].
      exists (added ++ added'). split.
      * by rewrite Hadded', Hadded, app_assoc.
      * intros Hin. apply elem_of_app in Hin as [Hin|Hin]; tauto.
    + by exists added.
Qed.

(** While a triple is active no call, however deeply nested, runs the
    hook of that triple. *)
Lemma run_never_reruns (k : triple) (c : call) (st : gset triple * list event) :
  k ∈ st.1 ->
  exists added, (run c st).2.2 = st.2 ++ added /\ HookRan k ∉ added.
Proof.
  revert st. induction c as [k' hook raises IH] using call_tree_ind.
  intros [stack events] Hk. simpl in Hk. rewrite run_Call.
  destruct (decide (k' ∈ stack)) as [Hk'|Hk'].
  - rewrite in_triggerstack_suppressed by done. exists [Mutated k'].
    split; [done|]. intros Hin. apply list_elem_of_singleton in Hin. discriminate.
  - assert (Hne : k' <> k) by (intros ->; done).
    unfold in_triggerstack. cbn [fst snd]. rewrite push_inactive by done.
    destruct (run_all_app_events k hook IH ({[k']} ∪ stack, events ++ [HookRan k']))
      as (added & Hadded & Hnot); [set_solver|].
    destruct (run_all hook ({[k']} ∪ stack, events ++ [HookRan k']))
      as [e [stack' events']]. cbn [fst snd] in Hadded. subst events'.
    assert (Hhook : HookRan k ∉ HookRan k' :: added).
    { intros Hin. apply elem_of_cons in Hin as [Hin|Hin]; [|done].
      injection Hin as ->. done. }
    destruct e, raises; cbn [fst snd].
    + exists (HookRan k' :: added). split; [by rewrite <- app_assoc|done].
    + exists ((HookRan k' :: added) ++ [Mutated k']). split.
      * by rewrite <- !app_assoc.
      * intros Hin. apply elem_of_app in Hin as [Hin|Hin]; [done|].
        apply list_elem_of_singleton in Hin. discriminate.
    + exists (HookRan k' :: added). split; [by rewrite <- app_assoc|done].
    + exists (HookRan k' :: added). split; [by rewrite <- app_assoc|done].
Qed.

(** A call on an inactive triple runs its hook once, first, with the
    triple active throughout, so the hook is never run a second time
    inside it; where the call returns, the mutation is its last event. *)
Lemma run_inactive (k : triple) (hook : list call) (raises : bool)
    (stack : gset triple) (events : list event) :
  k ∉ stack ->
  exists added,
    (run (Call k hook raises) (stack, events)).2.2 = events ++ HookRan k :: added
    /\ (HookRan k ∉ added)
    /\ ((run (Call k hook raises) (stack, events)).1 = Returned ->
        exists before, added = before ++ [Mutated k]).
Proof.
  intros Hk. rewrite run_Call. unfold in_triggerstack. cbn [fst snd].
  rewrite push_inactive by done.
  assert (Hall : Forall (fun c => forall st, k ∈ st.1 ->
                    exists added, (run c st).2.2 = st.2 ++ added
                                  /\ HookRan k ∉ added) hook).
  { apply Forall_forall. intros c _ st. apply run_never_reruns. }
  destruct (run_all_app_events k hook Hall ({[k]} ∪ stack, events ++ [HookRan k]))
    as (added & Hadded & Hnot); [set_solver|].
  destruct (run_all hook ({[k]} ∪ stack, events ++ [HookRan k]))
    as [e [stack' events']]. cbn [fst snd] in Hadded. subst events'.
  destruct e, raises; cbn [fst snd].
  - exists added. split; [by rewrite <- app_assoc|]. split; [done|]. discriminate.
  - exists (added ++ [Mutated k]). split; [by rewrite <- !app_assoc|]. split.
    + intros Hin. apply elem_of_app in Hin as [Hin|Hin]; [done|].
      apply list_elem_of_singleton in Hin. discriminate.
    + intros _. by exists added.
  - exists added. split; [by rewrite <- app_assoc|]. split; [done|]. discriminate.
  - exists added. split; [by rewrite <- app_assoc|]. split; [done|]. discriminate.
Qed.

(** C5. The two states of a triple.  Push activates an inactive triple
    and reports success; push on an active triple changes nothing and
    reports that it is already active.  Pop leaves the triple inactive.
    The guard on an inactive triple runs the hook with the triple
    active, hands back how the hook ended and leaves the triple inactive,
    whether the hook returned or raised; on an active triple it does not
    run the hook.  A CRUD call on an inactive triple runs its hook once,
    first, and never again inside it, and makes the mutation last if it
    returns; a call on an active triple skips the hook and still makes the
    mutation; and a whole call tree leaves the stack as it found it, so
    no triple stays active after it. *)
Theorem trigger_stack_two_states (k : triple) (stack : gset triple) :
  (k ∉ stack ->
     push k stack = (Success, {[k]} ∪ stack)
     /\ is_active k (push k stack).2 = true)
  /\ (k ∈ stack -> push k stack = (AlreadyActive, stack))
  /\ is_active k (pop k stack) = false
  /\ (forall (S : Type) (hook : gset triple * S -> ended * (gset triple * S))
             (s : S),
        k ∉ stack ->
        is_active k (in_triggerstack k hook (stack, s)).2.1 = false)
  /\ (forall (hook : list call) (raises : bool) (events : list event),
        k ∈ stack ->
        run (Call k hook raises) (stack, events)
        = (Returned, (stack, events ++ [Mutated k])))
  /\ (forall (c : call) (events : list event),
        (run c (stack, events)).2.1 = stack)
  /\ (forall (S : Type) (hook : gset triple * S -> ended * (gset triple * S))
             (s : S),
        k ∉ stack ->
        in_triggerstack k hook (stack, s)
        = (Some (hook ({[k]} ∪ stack, s)).1,
           ((hook ({[k]} ∪ stack, s)).2.1 ∖ {[k]}, (hook ({[k]} ∪ stack, s)).2.2)))
  /\ (forall (S : Type) (hook : gset triple * S -> ended * (gset triple * S))
             (s : S),
        k ∈ stack ->
        in_triggerstack k hook (stack, s) = (None, (stack, s)))
  /\ (forall (hook : list call) (raises : bool) (events : list event),
        k ∉ stack ->
        exists added,
          (run (Call k hook raises) (stack, events)).2.2
          = events ++ HookRan k :: added
          /\ (HookRan k ∉ added)
          /\ ((run (Call k hook raises) (stack, events)).1 = Returned ->
              exists before, added = before ++ [Mutated k]))
  /\ (forall (raises : bool) (events : list event),
        k ∉ stack ->
        run (Call k [] raises) (stack, events)
        = if raises
          then (Raised, (stack, events ++ [HookRan k]))
          else (Returned, (stack, events ++ [HookRan k; Mutated k]))).
Proof.
  unfold is_active.
  split; [|split; [|split; [|split; [|split; [|split; [|split; [|split; [|split]]]]]]]].
  - intros Hk. split; [by apply push_inactive|].
    rewrite push_inactive by done. apply bool_decide_eq_true. set_solver.
  - apply push_active.
  - apply bool_decide_eq_false, pop_inactive.
  - intros S hook s Hk. apply bool_decide_eq_false.
    by apply in_triggerstack_releases.
  - intros hook raises events Hk. rewrite run_Call.
    by rewrite in_triggerstack_suppressed.
  - intros c events. apply (run_restores c (stack, events)).
  - intros S hook s Hk. unfold in_triggerstack. cbn [fst snd].
    rewrite push_inactive by done.
    by destruct (hook ({[k]} ∪ stack, s)) as [e [stack' s']].
  - intros S hook s Hk. by apply in_triggerstack_suppressed.
  - intros hook raises events Hk. by apply run_inactive.
  - intros raises events Hk. rewrite run_Call. unfold in_triggerstack.
    cbn [fst snd]. rewrite push_inactive by done. simpl.
    destruct raises; cbn [fst snd]; rewrite pop_push by done;
      by rewrite <- ?app_assoc.
Qed.
End trigger_stack.

(** ** The Schema Synchronizer *)

Section synchronizer.
Import SchemaSynchronizer.

Lemma to_add_matches (t : Table) (live : gmap string ColumnInfo.t) :
  schema_matches t live -> to_add t live = [].
Proof.
  intros [Hdom _]. unfold to_add. apply filter_none.
  intros col Hcol Hnone. apply not_elem_of_dom in Hnone. apply Hnone.
  rewrite Hdom. apply elem_of_list_to_set. unfold column_names.
  apply list_elem_of_fmap. by exists col.
Qed.

Lemma to_drop_matches (t : Table) (live : gmap string ColumnInfo.t) :
  schema_matches t live -> to_drop t live = ∅.
Proof. intros [Hdom _]. unfold to_drop. rewrite Hdom. set_solver. Qed.

Lemma to_alter_matches (t : Table) (live : gmap string ColumnInfo.t) :
  schema_matches t live -> to_alter t live = [].
Proof.
  intros [_ Hagree]. unfold to_alter. apply filter_none.
  intros col Hcol. unfold needs_alter.
  destruct (live !! col_name col) as [info|] eqn:Hlive; [|done].
  rewrite bool_decide_eq_true. intros Hno. apply Hno. by apply Hagree.
Qed.

(** One run, in terms of what introspection reports. *)
Lemma synchronize_introspect (a : DatabaseAdapter.t) (cursor : Cursor) (t : Table) :
  synchronize a cursor t
  = let '(present, live, cursor) := introspect a cursor (sql_name t) in
    if negb present then
      let sql := create_table_sql a t in
      ({| plan := [sql]; unresolved_drift := [] |}, execute sql [] cursor)
    else
      let '(added, cursor) := add_columns a cursor t (to_add t live) in
      let '(dropped, cursor) := drop a cursor t (to_drop t live) in
      ({| plan := added ++ dropped;
          unresolved_drift := col_name <$> to_alter t live |}, cursor).
Proof.
  unfold synchronize, introspect.
  destruct (DatabaseAdapter.table_exists a cursor (sql_name t)) as [[] c1];
    simpl; [|done].
  by destruct (DatabaseAdapter.get_current_schema a c1 (sql_name t)).
Qed.

Lemma synchronize_matching (a : DatabaseAdapter.t) (cursor cursor' : Cursor)
    (t : Table) (live : gmap string ColumnInfo.t) :
  introspect a cursor (sql_name t) = (true, live, cursor') ->
  schema_matches t live ->
  synchronize a cursor t = ({| plan := []; unresolved_drift := [] |}, cursor').
Proof.
  intros Hintro Hmatch. rewrite synchronize_introspect, Hintro. simpl.
  rewrite to_add_matches, to_drop_matches, to_alter_matches by done.
  reflexivity.
Qed.

(** C1. Synchronizing a table whose live schema matches the model finds
    nothing to add, to drop or to alter, returns the empty plan and
    leaves the cursor as introspection left it; run again right away, it
    returns the empty plan again. *)
Theorem synchronize_idempotent (a : DatabaseAdapter.t) (cursor cursor' : Cursor)
    (t : Table) (live : gmap string ColumnInfo.t) :
  introspection_repeatable a ->
  introspect a cursor (sql_name t) = (true, live, cursor') ->
  schema_matches t live ->
  to_add t live = [] /\ to_drop t live = ∅ /\ to_alter t live = []
  /\ synchronize a cursor t = ({| plan := []; unresolved_drift := [] |}, cursor')
  /\ (synchronize a (synchronize a cursor t).2 t).1
     = {| plan := []; unresolved_drift := [] |}.
Proof.
  intros Hrep Hintro Hmatch.
  split; [by apply to_add_matches|]. split; [by apply to_drop_matches|].
  split; [by apply to_alter_matches|].
  pose proof (synchronize_matching a cursor cursor' t live Hintro Hmatch) as Hrun.
  split; [exact Hrun|]. rewrite Hrun. simpl.
  specialize (Hrep cursor (sql_name t)). rewrite Hintro in Hrep. simpl in Hrep.
  destruct (introspect a cursor' (sql_name t)) as [[present live'] cursor'']
    eqn:Hagain.
  simpl in Hrep. injection Hrep as -> ->.
  by rewrite (synchronize_matching a cursor' cursor'' t live Hagain Hmatch).
Qed.

(** PostgreSQL's introspection only reads the catalog. *)
Lemma postgres_introspect
    (rebuild : Cursor -> Table -> gset string -> list string * Cursor)
    (cursor : Cursor) (name : string) :
  let r := introspect (postgres rebuild) cursor name in
  r.1.1 = select_exists (database cursor) name
  /\ r.1.2 = (if select_exists (database cursor) name
              then PostgreSQLAdapter.schema_of_rows
                     (select_columns (database cursor) name)
              else ∅)
  /\ database r.2 = database cursor
  /\ engine r.2 = engine cursor
  /\ executed r.2
     = executed cursor
       ++ (if select_exists (database cursor) name
           then [(tables_query, [name]); (columns_query, [name])]
           else [(tables_query, [name])]).
Proof.
  unfold introspect, postgres; cbn [DatabaseAdapter.table_exists
    DatabaseAdapter.get_current_schema].
  rewrite table_exists_eq.
  destruct (select_exists (database cursor) name); cbn [negb].
  - rewrite get_current_schema_eq. cbn. by rewrite <- app_assoc.
  - done.
Qed.

Lemma postgres_introspection_repeatable
    (rebuild : Cursor -> Table -> gset string -> list string * Cursor) :
  introspection_repeatable (postgres rebuild).
Proof.
  intros cursor name.
  pose proof (postgres_introspect rebuild cursor name) as (H1 & H2 & Hdb & _).
  destruct (introspect (postgres rebuild) cursor name) as [[p l] c].
  cbn [fst snd] in *.
  pose proof (postgres_introspect rebuild c name) as (H1' & H2' & _).
  destruct (introspect (postgres rebuild) c name) as [[p' l'] c'].
  simpl in *. rewrite Hdb in H1', H2'. congruence.
Qed.

(** On PostgreSQL, synchronizing a matching table executes the two
    introspection queries and nothing else, and leaves the catalog as it
    was. *)
Lemma postgres_synchronize_matching
    (rebuild : Cursor -> Table -> gset string -> list string * Cursor)
    (cursor : Cursor) (t : Table) :
  select_exists (database cursor) (sql_name t) = true ->
  schema_matches t
    (PostgreSQLAdapter.schema_of_rows
       (select_columns (database cursor) (sql_name t))) ->
  let r := synchronize (postgres rebuild) cursor t in
  r.1 = {| plan := []; unresolved_drift := [] |}
  /\ database r.2 = database cursor
  /\ executed r.2
     = executed cursor
       ++ [(tables_query, [sql_name t]); (columns_query, [sql_name t])].
Proof.
  intros Hex Hmatch.
  pose proof (postgres_introspect rebuild cursor (sql_name t))
    as (H1 & H2 & Hdb & _ & Hlog).
  rewrite Hex in H1, H2, Hlog.
  destruct (introspect (postgres rebuild) cursor (sql_name t))
    as [[present live] cursor'] eqn:Hintro.
  cbn [fst snd] in *. subst present live.
  rewrite (synchronize_matching _ _ _ _ _ Hintro Hmatch). done.
Qed.
End synchronizer.

(** ** The Table / CRUD engine *)

Section crud.
Import CRUD.

(** The value a list of generated items leaves under a key that every
    item with that key agrees on. *)
Lemma dict_items_fmap_lookup {A : Type} (f : A -> string) (g : A -> value)
    (l : list A) (k : string) (v : value) :
  k ∈ f <$> l ->
  (forall x, x ∈ l -> f x = k -> g x = v) ->
  dict_items ((fun x => (f x, g x)) <$> l) !! k = Some v.
Proof.
  induction l as [|x l IH] using rev_ind; intros Hin Hall.
  - by apply elem_of_nil in Hin.
  - rewrite fmap_app. simpl. rewrite dict_items_snoc.
    destruct (decide (f x = k)) as [Hx|Hx].
    + rewrite Hx, lookup_insert_eq. f_equal. apply Hall; [|done].
      apply elem_of_app. right. by left.
    + rewrite lookup_insert_ne by done. apply IH.
      * rewrite fmap_app in Hin. apply elem_of_app in Hin as [Hin|Hin]; [done|].
        simpl in Hin. apply list_elem_of_singleton in Hin. congruence.
      * intros y Hy. apply Hall. apply elem_of_app. by left.
Qed.

Lemma max_key_bound (t : Table) (rows : list (gmap string value)) (z : Z) :
  Some (VInt z) ∈ keys t rows -> (z <= max_key t rows)%Z.
Proof.
  unfold keys. induction rows as [|r rows IH]; simpl; intros Hin.
  - by apply elem_of_nil in Hin.
  - apply elem_of_cons in Hin as [Hin|Hin].
    + rewrite <- Hin. lia.
    + specialize (IH Hin). destruct (r !! pkey t) as [[]|]; lia.
Qed.

(** A generated key is not the key of a stored row. *)
Lemma generated_key_fresh (t : Table) (rows : list (gmap string value)) :
  Some (VInt (1 + max_key t rows)) ∉ keys t rows.
Proof. intros Hin. apply max_key_bound in Hin. lia. Qed.

Lemma filter_key_absent (t : Table) (rows : list (gmap string value))
    (key : value) :
  Some key ∉ keys t rows ->
  filter (fun r : gmap string value => r !! pkey t = Some key) rows = [].
Proof.
  intros Hfresh. apply filter_none. intros r Hr Hkey. apply Hfresh.
  unfold keys. apply list_elem_of_fmap. exists r. done.
Qed.

Lemma new_row_key (t : Table) (record : gmap string value) (key : value) :
  new_row t record key !! pkey t = Some key.
Proof. unfold new_row. apply lookup_insert_eq. Qed.

(** The stored row repeats every value the record supplies for a
    declared column, once the key is the one computed for the record. *)
Lemma new_row_supplied (t : Table) (rows : list (gmap string value))
    (record : gmap string value) (key : value) (c : string) (v : value) :
  key_for t rows record = Some key ->
  c ∈ column_names t ->
  record !! c = Some v ->
  new_row t record key !! c = Some v.
Proof.
  intros Hkey Hc Hv. unfold new_row.
  destruct (decide (pkey t = c)) as [Hpk|Hpk].
  - subst c. rewrite lookup_insert_eq. unfold key_for in Hkey.
    rewrite Hv in Hkey. destruct v; congruence.
  - rewrite lookup_insert_ne by done.
    apply dict_items_fmap_lookup; [exact Hc|].
    intros col _ Hname. unfold stored_value. by rewrite Hname, Hv.
Qed.

(** The rows a table holds after an insert that succeeds. *)
Lemma insert_Ok (t : Table) (rows : list (gmap string value))
    (record : gmap string value) (key : value) :
  valid_record t record = true ->
  key_for t rows record = Some key ->
  Some key ∉ keys t rows ->
  insert t rows record = Ok (key, rows ++ [new_row t record key]).
Proof.
  intros Hvalid Hkey Hfresh. unfold insert.
  rewrite Hvalid, Hkey. by rewrite decide_False.
Qed.

Lemma get_inserted (t : Table) (rows : list (gmap string value))
    (record : gmap string value) (key : value) :
  Some key ∉ keys t rows ->
  get t (rows ++ [new_row t record key]) key = Ok (new_row t record key).
Proof.
  intros Hfresh. unfold get.
  rewrite filter_app, filter_key_absent by done. simpl.
  rewrite filter_cons_True by apply new_row_key. reflexivity.
Qed.

(** The value a list of generated items leaves under a key that occurs
    in it is the value of one of the items with that key. *)
Lemma dict_items_fmap_lookup_some {A : Type} (f : A -> string) (g : A -> value)
    (l : list A) (k : string) :
  k ∈ f <$> l ->
  exists x, x ∈ l /\ f x = k
            /\ dict_items ((fun x => (f x, g x)) <$> l) !! k = Some (g x).
Proof.
  induction l as [|x l IH] using rev_ind; intros Hin.
  - by apply elem_of_nil in Hin.
  - rewrite fmap_app. simpl. rewrite dict_items_snoc.
    destruct (decide (f x = k)) as [Hx|Hx].
    + exists x. split; [apply elem_of_app; right; by left|]. split; [done|].
      by rewrite Hx, lookup_insert_eq.
    + rewrite fmap_app in Hin. apply elem_of_app in Hin as [Hin|Hin].
      * destruct (IH Hin) as (y & Hy & Hfy & Hlook). exists y.
        split; [apply elem_of_app; by left|]. split; [done|].
        by rewrite lookup_insert_ne.
      * simpl in Hin. apply list_elem_of_singleton in Hin. congruence.
Qed.

(** The columns of a stored row are the declared columns and the primary
    key column. *)
Lemma new_row_dom (t : Table) (record : gmap string value) (key : value) :
  dom (new_row t record key) = {[pkey t]} ∪ list_to_set (column_names t).
Proof.
  unfold new_row. rewrite dom_insert_L, dict_items_dom. f_equal.
  unfold column_names. by rewrite <- list_fmap_compose.
Qed.

(** The stored row holds, for a declared column the record leaves out,
    the default declared for it, or null where none is declared. *)
Lemma new_row_omitted (t : Table) (record : gmap string value) (key : value)
    (c : string) :
  c ∈ column_names t ->
  record !! c = None ->
  c <> pkey t ->
  exists col, col ∈ columns t /\ col_name col = c
              /\ new_row t record key !! c
                 = Some (match col_default col with
                         | Some v => v
                         | None => VNull
                         end).
Proof.
  intros Hc Hnone Hpk. unfold new_row. rewrite lookup_insert_ne by done.
  destruct (dict_items_fmap_lookup_some col_name (stored_value record)
              (columns t) c Hc) as (col & Hcol & Hname & Hlook).
  exists col. split; [done|]. split; [done|].
  rewrite Hlook. unfold stored_value. rewrite Hname, Hnone.
  by destruct (col_default col).
Qed.

(** The key computed for a valid record of a table that declares its
    primary key: the one the record supplies, or else the next integer. *)
Lemma key_for_valid (t : Table) (rows : list (gmap string value))
    (record : gmap string value) :
  primary_key_declared t ->
  valid_record t record = true ->
  key_for t rows record
  = Some (match record !! pkey t with
          | Some v => v
          | None => VInt (1 + max_key t rows)
          end).
Proof.
  intros (col & Hcol & Hname & Hnull & Hdflt) Hvalid.
  unfold valid_record in Hvalid. rewrite forallb_forall in Hvalid.
  specialize (Hvalid col (proj1 (list_elem_of_In _ _) Hcol)).
  unfold column_ok in Hvalid. rewrite Hname, Hnull, Hdflt in Hvalid.
  unfold key_for. destruct (record !! pkey t) as [[]|]; try done.
  assert (Hauto : pkey_auto t = true).
  { unfold pkey_auto. apply existsb_exists. exists col.
    split; [by apply list_elem_of_In|].
    rewrite bool_decide_eq_true_2 by done. simpl in *. done. }
  by rewrite Hauto.
Qed.

(** What [insert] returns when it returns: the key computed for the
    record, fresh among the stored keys, and the rows with the new row
    at the end. *)
Lemma insert_Ok_inv (t : Table) (rows rows' : list (gmap string value))
    (record : gmap string value) (key : value) :
  insert t rows record = Ok (key, rows') ->
  key_for t rows record = Some key
  /\ (Some key ∉ keys t rows)
  /\ rows' = rows ++ [new_row t record key].
Proof.
  unfold insert. destruct (valid_record t record); [|done].
  destruct (key_for t rows record) as [k|]; [|done].
  destruct (decide (Some k ∈ keys t rows)); [done|].
  intros Heq. injection Heq as <- <-. done.
Qed.

(** C6. Insert/get round trip.  For a valid record, whenever insert
    returns a key, get with the returned key returns the row that insert
    stored, and on every declared column the row equals the inserted
    record: it holds the record's value where the record has one, and
    otherwise the returned key in the primary key column (the next
    integer, generated by the table) and the declared default, or null,
    in any other column; it has no other column.  Insert does return a
    key where the table declares its primary key and the key the record
    supplies, if it supplies one, is not the key of a stored row. *)
Theorem insert_get_round_trip (t : Table) (rows : list (gmap string value))
    (record : gmap string value) :
  valid_record t record = true ->
  (forall key rows',
     insert t rows record = Ok (key, rows') ->
     exists r,
       rows' = rows ++ [r]
       /\ get t rows' key = Ok r
       /\ r !! pkey t = Some key
       /\ (forall c v, c ∈ column_names t -> record !! c = Some v ->
             r !! c = Some v)
       /\ (forall c, c ∈ column_names t -> record !! c = None -> c <> pkey t ->
             exists col, col ∈ columns t /\ col_name col = c
                         /\ r !! c = Some (match col_default col with
                                           | Some v => v
                                           | None => VNull
                                           end))
       /\ (record !! pkey t = None -> key = VInt (1 + max_key t rows))
       /\ dom r = {[pkey t]} ∪ list_to_set (column_names t))
  /\ (primary_key_declared t ->
      (forall v, record !! pkey t = Some v -> Some v ∉ keys t rows) ->
      exists r,
        insert t rows record
        = Ok (match record !! pkey t with
              | Some v => v
              | None => VInt (1 + max_key t rows)
              end, rows ++ [r])).
Proof.
  intros Hvalid. split.
  - intros key rows' Hins.
    destruct (insert_Ok_inv _ _ _ _ _ Hins) as (Hkey & Hfresh & ->).
    exists (new_row t record key). split; [done|].
    split; [by apply get_inserted|]. split; [apply new_row_key|].
    split; [intros c v Hc Hv; by apply (new_row_supplied t rows)|].
    split; [intros c Hc Hnone Hne; by apply new_row_omitted|].
    split; [|apply new_row_dom].
    intros Hnone. unfold key_for in Hkey. rewrite Hnone in Hkey.
    destruct (pkey_auto t); congruence.
  - intros Hpk Hsupplied.
    pose proof (key_for_valid t rows record Hpk Hvalid) as Hkey.
    eexists. apply insert_Ok; [done|exact Hkey|].
    destruct (record !! pkey t) as [v|] eqn:Hrec.
    + by apply Hsupplied.
    + apply generated_key_fresh.
Qed.

(** *** The invariant of the stored rows *)

Lemma well_formed_empty (t : Table) : well_formed t [].
Proof. split; [constructor | apply not_elem_of_nil]. Qed.

Lemma well_formed_insert (t : Table) (rows rows' : list (gmap string value))
    (record : gmap string value) (key : value) :
  well_formed t rows ->
  insert t rows record = Ok (key, rows') ->
  well_formed t rows'.
Proof.
  intros [Hnd Hnone] Hins. unfold insert in Hins.
  destruct (valid_record t record); [|done].
  destruct (key_for t rows record) as [k|]; [|done].
  case_decide as Hfresh; [done|]. injection Hins as <- <-.
  unfold well_formed, keys in *. rewrite fmap_app. simpl.
  rewrite new_row_key. split.
  - apply NoDup_app. split; [done|]. split; [|apply NoDup_singleton].
    intros k' Hk' Hin. apply list_elem_of_singleton in Hin. by subst.
  - intros Hin. apply elem_of_app in Hin as [Hin|Hin]; [done|].
    by apply list_elem_of_singleton in Hin.
Qed.

Lemma keys_filter (t : Table) (rows : list (gmap string value)) (key : value) :
  keys t (filter (fun r : gmap string value => r !! pkey t <> Some key) rows)
  = filter (fun k => k <> Some key) (keys t rows).
Proof.
  unfold keys. induction rows as [|r rows IH]; [done|].
  rewrite fmap_cons, !filter_cons. repeat case_decide; try done.
  by rewrite fmap_cons, IH.
Qed.

Lemma well_formed_delete (t : Table) (rows rows' : list (gmap string value))
    (key : value) :
  well_formed t rows ->
  delete t rows key = Ok rows' ->
  well_formed t rows'.
Proof.
  intros [Hnd Hnone] Hdel. unfold delete in Hdel.
  case_decide; [|done]. injection Hdel as <-.
  unfold well_formed. rewrite keys_filter. split.
  - by apply NoDup_filter.
  - rewrite list_elem_of_filter. tauto.
Qed.

(** Every state of a table is well formed. *)
Lemma reachable_well_formed (t : Table) (rows : list (gmap string value)) :
  reachable t rows -> well_formed t rows.
Proof.
  induction 1 as [|rows record key rows' _ IH Hins|rows key rows' _ IH Hdel].
  - apply well_formed_empty.
  - by apply (well_formed_insert t rows rows' record key).
  - by apply (well_formed_delete t rows rows' key).
Qed.

(** Removing the one occurrence of an element shortens a list by one. *)
Lemma length_filter_NoDup {A : Type} `{EqDecision A} (l : list A) (x : A) :
  NoDup l -> x ∈ l -> length l = S (length (filter (fun y => y <> x) l)).
Proof.
  induction 1 as [|y l Hy Hnd IH]; intros Hin.
  - by apply elem_of_nil in Hin.
  - rewrite filter_cons. apply elem_of_cons in Hin as [->|Hin].
    + rewrite decide_False by (intros Hne; by apply Hne). simpl. f_equal.
      clear IH. induction l as [|z l IHl]; [done|].
      apply not_elem_of_cons in Hy as [Hyz Hyl]. apply NoDup_cons in Hnd as [_ Hnd].
      rewrite filter_cons_True by done. simpl. f_equal. by apply IHl.
    + rewrite decide_True by (intros ->; done). simpl. f_equal. by apply IH.
Qed.

(** C7. Deleting a key that is present succeeds; afterwards get of that
    key fails with NotFound, no listed row has the key, the list is one
    row shorter, and every other row is still listed.  Deleting through
    a record that carries the key does the same. *)
Theorem delete_finality (t : Table) (rows : list (gmap string value))
    (key : value) :
  well_formed t rows ->
  Some key ∈ keys t rows ->
  exists rows',
    delete t rows key = Ok rows'
    /\ (forall record, record !! pkey t = Some key ->
          delete_record t rows record = Ok rows')
    /\ get t rows' key = Err NotFound
    /\ (forall r, r ∈ list_rows t rows' -> r !! pkey t <> Some key)
    /\ length (list_rows t rows) = S (length (list_rows t rows'))
    /\ (forall r, r ∈ list_rows t rows -> r !! pkey t <> Some key ->
          r ∈ list_rows t rows').
Proof.
  intros [Hnd Hnone] Hin.
  exists (filter (fun r : gmap string value => r !! pkey t <> Some key) rows).
  assert (Hdel : delete t rows key
                 = Ok (filter (fun r : gmap string value =>
                                 r !! pkey t <> Some key) rows)).
  { unfold delete. by rewrite decide_True. }
  split; [exact Hdel|]. split.
  { intros record Hrec. unfold delete_record. by rewrite Hrec. }
  unfold list_rows. split; [|split; [|split]].
  - unfold get. rewrite filter_key_absent; [done|].
    rewrite keys_filter, list_elem_of_filter. tauto.
  - intros r Hr. apply list_elem_of_filter in Hr. tauto.
  - rewrite <- (length_fmap (fun r : gmap string value => r !! pkey t) rows).
    rewrite <- (length_fmap (fun r : gmap string value => r !! pkey t)
                  (filter _ rows)).
    fold (keys t rows).
    fold (keys t (filter (fun r : gmap string value => r !! pkey t <> Some key) rows)).
    rewrite keys_filter. by apply length_filter_NoDup.
  - intros r Hr Hkey. apply list_elem_of_filter. done.
Qed.
End crud.

(** * Further properties of the adapter *)

Lemma schema_of_rows_dom (rows : list ColumnRow) :
  dom (PostgreSQLAdapter.schema_of_rows rows) = list_to_set (column_name <$> rows).
Proof.
  induction rows as [|row rows IH] using rev_ind; [apply dom_empty_L|].
  rewrite schema_of_rows_snoc, dom_insert_L, IH, fmap_app, list_to_set_app_L.
  simpl. set_solver.
Qed.

Lemma size_list_to_set_le (l : list string) :
  size (list_to_set (C:=gset string) l) <= length l.
Proof.
  induction l as [|x l IH]; [by rewrite list_to_set_nil, size_empty|].
  rewrite list_to_set_cons, size_union_alt, size_singleton. simpl.
  assert (size (list_to_set (C:=gset string) l ∖ {[x]})
          <= size (list_to_set (C:=gset string) l))
    by (apply subseteq_size; set_solver).
  lia.
Qed.

(** The keys of a returned schema are the column names of the fetched
    rows, so the schema has at most as many entries as rows were fetched. *)
Lemma get_current_schema_keys (cursor : Cursor) (name : string) :
  dom (PostgreSQLAdapter.get_current_schema cursor name).1
  = list_to_set (column_name <$> select_columns (database cursor) name)
  /\ size (PostgreSQLAdapter.get_current_schema cursor name).1
     <= length (select_columns (database cursor) name).
Proof.
  rewrite get_current_schema_rows. split; [apply schema_of_rows_dom|].
  rewrite <- size_dom, schema_of_rows_dom.
  rewrite <- (length_fmap column_name (select_columns (database cursor) name)).
  apply size_list_to_set_le.
Qed.

(** Where the fetched rows have distinct column names the schema has one
    entry per row, the dictionary built from that row. *)
Lemma get_current_schema_distinct (cursor : Cursor) (name : string) :
  NoDup (column_name <$> select_columns (database cursor) name) ->
  size (PostgreSQLAdapter.get_current_schema cursor name).1
  = length (select_columns (database cursor) name)
  /\ forall row,
       row ∈ select_columns (database cursor) name ->
       (PostgreSQLAdapter.get_current_schema cursor name).1 !! column_name row
       = Some (PostgreSQLAdapter.column_info row).
Proof.
  rewrite get_current_schema_rows.
  generalize (select_columns (database cursor) name). intros rows Hnd. split.
  - rewrite <- size_dom, schema_of_rows_dom, size_list_to_set by done.
    apply length_fmap.
  - induction rows as [|last rows IH] using rev_ind; intros row Hrow.
    + by apply elem_of_nil in Hrow.
    + rewrite fmap_app in Hnd. apply NoDup_app in Hnd as (Hnd & Hfresh & _).
      rewrite schema_of_rows_snoc. apply elem_of_app in Hrow as [Hrow|Hrow].
      * rewrite lookup_insert_ne; [by apply IH|].
        intros Heq. apply (Hfresh (column_name row)).
        -- apply list_elem_of_fmap. by exists row.
        -- rewrite <- Heq. simpl. by left.
      * apply list_elem_of_singleton in Hrow. subst row. apply lookup_insert_eq.
Qed.

Lemma drop_columns_statements (cursor : Cursor) (table : Table)
    (cols : gset string) :
  (PostgreSQLAdapter._drop_columns cursor table cols).1
  = PostgreSQLAdapter.drop_column_sql table <$> elements cols.
Proof.
  destruct (drop_loop table (elements cols) [] cursor) as [H1 _].
  exact H1.
Qed.

(** Dropping two disjoint sets of columns in two calls returns the same
    statements as dropping their union in one. *)
Lemma drop_columns_union (cursor cursor' : Cursor) (table : Table)
    (cols cols' : gset string) :
  cols ## cols' ->
  (PostgreSQLAdapter._drop_columns cursor table (cols ∪ cols')).1
  ≡ₚ (PostgreSQLAdapter._drop_columns cursor table cols).1
     ++ (PostgreSQLAdapter._drop_columns cursor' table cols').1.
Proof.
  intros Hdisj. rewrite !drop_columns_statements, <- fmap_app.
  apply fmap_Permutation. by apply elements_disj_union.
Qed.

(** * Further properties of the register *)

Lemma get_add_same (name cs : string) (fs : FileSystem) :
  DbConfig.get name (DbConfig.add name cs fs) = Some (connection_entry cs).
Proof.
  unfold DbConfig.get, DbConfig.add. rewrite load_save_register.
  apply lookup_insert_eq.
Qed.

Lemma load_add (name cs : string) (fs : FileSystem) :
  DbConfig.load_register (DbConfig.add name cs fs)
  = <[name := connection_entry cs]> (DbConfig.load_register fs).
Proof. unfold DbConfig.add. by rewrite load_save_register. Qed.

Lemma load_remove (name : string) (fs : FileSystem) :
  DbConfig.load_register (DbConfig.remove name fs).2
  = delete name (DbConfig.load_register fs).
Proof.
  destruct (remove_absent_or_present name fs) as [[Habs ->]|[Hin ->]]; simpl.
  - symmetry. apply delete_id. by apply not_elem_of_dom.
  - apply load_save_register.
Qed.

(** The registered names after [add] and after [remove], whether or not
    the name was registered before. *)
Lemma registered_names (name cs : string) (fs : FileSystem) :
  dom (DbConfig.list_all (DbConfig.add name cs fs))
  = {[name]} ∪ dom (DbConfig.list_all fs)
  /\ dom (DbConfig.list_all (DbConfig.remove name fs).2)
     = dom (DbConfig.list_all fs) ∖ {[name]}.
Proof.
  unfold DbConfig.list_all. rewrite load_add, load_remove.
  split; [apply dom_insert_L | apply dom_delete_L].
Qed.

(** Removing a name right after adding it, where it was not registered
    before, returns true and leaves the register with the entries it had;
    the register file now exists. *)
Lemma add_remove_restores (name cs : string) (fs : FileSystem) :
  name ∉ dom (DbConfig.load_register fs) ->
  DbConfig.remove name (DbConfig.add name cs fs)
  = (true, {| db_dir_exists := true;
              register_file := Some (DbConfig.load_register fs) |}).
Proof.
  intros Hfresh. unfold DbConfig.remove. rewrite load_add.
  rewrite decide_False by (rewrite dom_insert_L; set_solver).
  unfold DbConfig.save_register, DbConfig.ensure_directories. simpl.
  rewrite delete_insert_id; [done|]. by apply not_elem_of_dom.
Qed.

(** After two different names are added, in either order, looking a
    name up gives the same answer: the entry of the connection string
    added under it for each of the two names, and for any other name
    what the register held before.  (The order of the keys in the file
    may differ between the two orders; lookups do not depend on it.) *)
Lemma add_commutes (name name' cs cs' : string) (fs : FileSystem) (n : string) :
  name <> name' ->
  DbConfig.get n (DbConfig.add name cs (DbConfig.add name' cs' fs))
  = DbConfig.get n (DbConfig.add name' cs' (DbConfig.add name cs fs))
  /\ DbConfig.get n (DbConfig.add name cs (DbConfig.add name' cs' fs))
     = if decide (n = name)
       then Some (JObject [("connection_string", JString cs)])
       else if decide (n = name')
            then Some (JObject [("connection_string", JString cs')])
            else DbConfig.get n fs.
Proof.
  intros Hne. unfold DbConfig.get. rewrite !load_add.
  unfold connection_entry.
  destruct (decide (n = name)) as [->|Hn].
  - rewrite lookup_insert_eq, lookup_insert_ne by done.
    by rewrite lookup_insert_eq.
  - rewrite (lookup_insert_ne _ name n) by done.
    destruct (decide (n = name')) as [->|Hn'].
    + by rewrite !lookup_insert_eq.
    + by rewrite !lookup_insert_ne by done.
Qed.

(** * The handlers of [genro db] *)

Lemma well_shaped_empty : well_shaped ∅.
Proof. intros name v Hv. by rewrite lookup_empty in Hv. Qed.

Lemma well_shaped_insert (register : gmap string json) (name cs : string) :
  well_shaped register -> well_shaped (<[name := connection_entry cs]> register).
Proof.
  intros Hws n v Hv. destruct (decide (name = n)) as [->|Hne].
  - rewrite lookup_insert_eq in Hv. injection Hv as <-. by exists cs.
  - rewrite lookup_insert_ne in Hv by done. by apply (Hws n).
Qed.

Lemma well_shaped_delete (register : gmap string json) (name : string) :
  well_shaped register -> well_shaped (delete name register).
Proof.
  intros Hws n v Hv. apply lookup_delete_Some in Hv as [_ Hv]. by apply (Hws n).
Qed.

Lemma py_value_Some (v : json) : py_value (Some v) = v.
Proof. reflexivity. Qed.

Lemma truthy_entry (cs : string) : truthy (connection_entry cs) = true.
Proof. reflexivity. Qed.

Lemma dict_get_entry (cs : string) (dflt : json) :
  dict_get (connection_entry cs) "connection_string" dflt = inr (JString cs).
Proof.
  unfold dict_get, connection_entry, dict_items. simpl.
  by rewrite lookup_insert_eq.
Qed.

(** The items of a well-shaped register are names with connection
    strings. *)
Lemma well_shaped_items (register : gmap string json) :
  well_shaped register ->
  exists pairs : list (string * string),
    map_to_list register = (fun p => (p.1, connection_entry p.2)) <$> pairs.
Proof.
  intros Hws.
  assert (Hall : Forall (fun kv : string * json =>
                           exists cs, kv.2 = connection_entry cs)
                   (map_to_list register)).
  { apply Forall_forall. intros [k v] Hkv.
    apply elem_of_map_to_list in Hkv. by apply (Hws k). }
  induction Hall as [|[k v] l [cs Hcs] _ [pairs IH]].
  - by exists [].
  - exists ((k, cs) :: pairs). simpl in *. by rewrite Hcs, IH.
Qed.

Lemma flat_map_listed_length (pairs : list (string * string)) :
  length (flat_map listed_lines pairs) = 2 * length pairs.
Proof. induction pairs as [|p pairs IH]; simpl; [done|]. rewrite IH. lia. Qed.

Lemma flat_map_listed_split (pairs : list (string * string)) (p : string * string) :
  p ∈ pairs ->
  exists before after,
    flat_map listed_lines pairs = before ++ listed_lines p ++ after.
Proof.
  intros Hp. apply list_elem_of_split in Hp as (l1 & l2 & ->).
  exists (flat_map listed_lines l1), (flat_map listed_lines l2).
  induction l1 as [|q l1 IH]; simpl; [done|]. by rewrite IH.
Qed.

Section db_commands.
Variable repr : json -> string.
Variable register_path : string.

Lemma list_items_entries (pairs : list (string * string)) (out : Console) :
  DbCommands.list_items repr
    ((fun p => (p.1, connection_entry p.2)) <$> pairs) out
  = (None, {| stdout := stdout out ++ flat_map listed_lines pairs;
              stderr := stderr out |}).
Proof.
  revert out. induction pairs as [|[name cs] pairs IH]; intros out.
  - simpl. rewrite app_nil_r. by destruct out.
  - rewrite fmap_cons. cbn [fst snd DbCommands.list_items].
    rewrite dict_get_entry, IH. unfold print. simpl.
    by rewrite <- !app_assoc.
Qed.

(** The loop of [_list] prints on the output stream only. *)
Lemma list_items_stderr (items : list (string * json)) (out out' : Console)
    (e : option string) :
  DbCommands.list_items repr items out = (e, out') -> stderr out' = stderr out.
Proof.
  revert out. induction items as [|[n i] items IH]; simpl; intros out Hrun.
  - by injection Hrun as _ <-.
  - destruct (dict_get i _ _).
    + by injection Hrun as _ <-.
    + by rewrite (IH _ Hrun).
Qed.

(** What [_list] does on a well-shaped register that is not empty. *)
Lemma list_well_shaped (fs : FileSystem) (out : Console) :
  well_shaped (DbConfig.load_register fs) ->
  DbConfig.load_register fs <> ∅ ->
  exists pairs : list (string * string),
    map_to_list (DbConfig.load_register fs)
    = (fun p => (p.1, connection_entry p.2)) <$> pairs
    /\ DbCommands._list repr (fs, out)
       = (Completed,
          (fs, {| stdout :=
                    (stdout out
                     ++ ["Registered databases ("
                         +:+ pretty (size (DbConfig.load_register fs)) +:+ "):";
                         ""])
                    ++ flat_map listed_lines pairs;
                  stderr := stderr out |})).
Proof.
  intros Hws Hne. destruct (well_shaped_items _ Hws) as [pairs Hitems].
  exists pairs. split; [exact Hitems|].
  unfold DbCommands._list, DbConfig.list_all.
  rewrite decide_False by done. rewrite Hitems, list_items_entries.
  unfold print. simpl. by rewrite <- !app_assoc.
Qed.

Lemma add_eq (name cs : string) (fs : FileSystem) (out : Console) :
  DbCommands._add register_path name cs (fs, out)
  = (Completed,
     (DbConfig.add name cs fs,
      print ("Configuration saved to: " +:+ register_path)
        (print ("Database '" +:+ name +:+ "' registered successfully.")
           (if truthy (py_value (DbConfig.get name fs))
            then eprint ("Warning: Database '" +:+ name
                         +:+ "' already exists. Updating...") out
            else out)))).
Proof. reflexivity. Qed.

(** After an [_add] that returned normally, [_get] of the same name
    completes and prints the name and the connection string that was
    added; it prints nothing on the error stream and leaves the register
    as [_add] left it. *)
Lemma cli_add_then_get (name cs : string) (w : FileSystem * Console) :
  (DbCommands._add register_path name cs w).1 = Completed ->
  DbCommands._get repr name (DbCommands._add register_path name cs w).2
  = (Completed,
     ((DbCommands._add register_path name cs w).2.1,
      {| stdout := stdout (DbCommands._add register_path name cs w).2.2
                   ++ ["Database: " +:+ name; "Connection: " +:+ cs];
         stderr := stderr (DbCommands._add register_path name cs w).2.2 |})).
Proof.
  intros _. destruct w as [fs out]. rewrite add_eq. cbn [fst snd].
  unfold DbCommands._get.
  rewrite get_add_same, py_value_Some, truthy_entry, dict_get_entry.
  unfold print. simpl. by rewrite <- !app_assoc.
Qed.

(** [_get] of a name whose entry is missing or is an empty value (an
    empty object, null, an empty string, zero, false) reports that the
    database is not found and exits with status 1. *)
Lemma cli_get_not_found (name : string) (fs : FileSystem) (out : Console) :
  truthy (py_value (DbConfig.get name fs)) = false ->
  DbCommands._get repr name (fs, out)
  = (SysExit 1,
     (fs, {| stdout := stdout out;
             stderr := stderr out
                       ++ ["Error: Database '" +:+ name +:+ "' not found.";
                           "Use 'genro db list' to see registered databases."] |})).
Proof.
  intros Hfalsy. unfold DbCommands._get. rewrite Hfalsy.
  unfold eprint. simpl. by rewrite <- !app_assoc.
Qed.

(** [_get] of a name whose entry is not a dictionary (a string, a
    number, a list) prints the name, then reports the AttributeError of
    the entry's type on the error stream and exits with status 1. *)
Lemma cli_get_not_a_dictionary (name : string) (fs : FileSystem)
    (out : Console) (v : json) :
  DbConfig.get name fs = Some v ->
  truthy v = true ->
  (forall members, v <> JObject members) ->
  DbCommands._get repr name (fs, out)
  = (SysExit 1,
     (fs, {| stdout := stdout out ++ ["Database: " +:+ name];
             stderr := stderr out
                       ++ ["Error getting database info: '" +:+ type_name v
                           +:+ "' object has no attribute 'get'"] |})).
Proof.
  intros Hget Htruthy Hnot. unfold DbCommands._get.
  rewrite Hget, py_value_Some, Htruthy. cbn [negb].
  destruct v; try done. by destruct (Hnot members).
Qed.

(** After [_remove], whether it removed the name or did not find it,
    [_get] of that name exits with status 1 and prints nothing on the
    output stream. *)
Lemma cli_remove_then_get (name : string) (w : FileSystem * Console) :
  let w1 := (DbCommands._remove name w).2 in
  DbCommands._get repr name w1
  = (SysExit 1,
     (w1.1, {| stdout := stdout w1.2;
               stderr := stderr w1.2
                         ++ ["Error: Database '" +:+ name +:+ "' not found.";
                             "Use 'genro db list' to see registered databases."] |})).
Proof.
  destruct w as [fs out]. cbn zeta.
  assert (Hgone : DbConfig.get name (DbCommands._remove name (fs, out)).2.1 = None).
  { unfold DbCommands._remove.
    pose proof (load_remove name fs) as Hload.
    destruct (DbConfig.remove name fs) as [[] fs']; cbn [fst snd] in *;
      unfold DbConfig.get; rewrite Hload; apply lookup_delete_eq. }
  destruct (DbCommands._remove name (fs, out)) as [e [fs' out']].
  cbn [fst snd] in *. unfold DbCommands._get. rewrite Hgone.
  unfold eprint. simpl. by rewrite <- !app_assoc.
Qed.

(** Adding a name a second time warns on the error stream that it already
    exists, and still completes and prints the two confirmation lines. *)
Lemma cli_add_again_warns (name cs cs' : string) (w : FileSystem * Console) :
  let w1 := (DbCommands._add register_path name cs w).2 in
  DbCommands._add register_path name cs' w1
  = (Completed,
     (DbConfig.add name cs' w1.1,
      {| stdout := stdout w1.2
                   ++ ["Database '" +:+ name +:+ "' registered successfully.";
                       "Configuration saved to: " +:+ register_path];
         stderr := stderr w1.2
                   ++ ["Warning: Database '" +:+ name
                       +:+ "' already exists. Updating..."] |})).
Proof.
  destruct w as [fs out]. rewrite (add_eq name cs fs out). cbn [fst snd].
  rewrite add_eq, get_add_same, py_value_Some, truthy_entry.
  unfold print, eprint. simpl. by rewrite <- !app_assoc.
Qed.

(** What an invocation leaves of the file system: it is unchanged, or a
    name has been added, or a name has been removed. *)
Lemma execute_file_system (args : Namespace) (fs : FileSystem) (out : Console) :
  let fs' := (DbCommands.execute repr register_path args (fs, out)).2.1 in
  fs' = fs
  \/ (db_command args = Some "add" /\ exists name cs, fs' = DbConfig.add name cs fs)
  \/ (db_command args = Some "remove"
      /\ exists name, fs' = (DbConfig.remove name fs).2).
Proof.
  unfold DbCommands.execute.
  destruct (db_command args) as [command|]; [|by left].
  destruct (decide (command = "")) as [->|Hempty]; [by left|].
  assert (Hsome : forall A (x y : A),
            match command with "" => x | String _ _ => y end = y)
    by (intros; by destruct command).
  rewrite Hsome. repeat case_decide; subst.
  - destruct (getattr args "name") as [e|name]; [by left|].
    destruct (getattr args "connection_string") as [e|cs]; [by left|].
    right. left. split; [done|]. by exists name, cs.
  - left. unfold DbCommands._list.
    case_decide; [done|].
    by destruct (DbCommands.list_items _ _ _) as [[e|] out'].
  - destruct (getattr args "name") as [e|name]; [by left|]. left.
    unfold DbCommands._get. destruct (negb _); [done|].
    by destruct (dict_get _ _ _).
  - destruct (getattr args "name") as [e|name]; [by left|].
    right. right. split; [done|]. exists name. unfold DbCommands._remove.
    by destruct (DbConfig.remove name fs) as [[] fs'].
  - by left.
Qed.

(** Only the [add] and [remove] subcommands write: an invocation with any
    other command, or with none, leaves the directory and the register
    file as they were, however it ends. *)
Lemma execute_writes_only_on_add_and_remove (args : Namespace)
    (w : FileSystem * Console) :
  db_command args <> Some "add" ->
  db_command args <> Some "remove" ->
  (DbCommands.execute repr register_path args w).2.1 = w.1.
Proof.
  intros Hadd Hremove. destruct w as [fs out].
  destruct (execute_file_system args fs out) as [H|[[H _]|[H _]]]; done.
Qed.

(** A command that is not the name of a subcommand [register_parser]
    declares (and no command at all) is refused: the invocation exits
    with status 1 after one line on the error stream and changes nothing
    else. *)
Lemma execute_undeclared_command (args : Namespace) (w : FileSystem * Console) :
  (forall cmd, cmd ∈ parser_commands DbCommands.db_parser ->
               db_command args <> Some (parser_name cmd)) ->
  exists line,
    DbCommands.execute repr register_path args w
    = (SysExit 1,
       (w.1, {| stdout := stdout w.2; stderr := stderr w.2 ++ [line] |})).
Proof.
  intros Hundeclared. destruct w as [fs out]. unfold DbCommands.execute.
  assert (Hnot : forall name,
            name ∈ ["add"; "list"; "get"; "remove"] ->
            db_command args <> Some name).
  { intros name Hname.
    repeat (apply elem_of_cons in Hname as [->|Hname]);
      [| | | | by apply elem_of_nil in Hname];
      [apply (Hundeclared (MkParser "add" "Register a new database connection" None
         [ {| arg_dest := "name"; arg_help := "Database identifier name" |};
           {| arg_dest := "connection_string";
              arg_help := "Database connection string or path" |} ] None))
      |apply (Hundeclared (MkParser "list" "List all registered databases" None [] None))
      |apply (Hundeclared (MkParser "get" "Get information about a specific database"
         None [ {| arg_dest := "name"; arg_help := "Database identifier name" |} ] None))
      |apply (Hundeclared (MkParser "remove" "Remove a registered database" None
         [ {| arg_dest := "name";
              arg_help := "Database identifier name to remove" |} ] None))];
      unfold DbCommands.db_parser; simpl;
      repeat first [apply list_elem_of_here | apply list_elem_of_further]. }
  destruct (db_command args) as [command|]; [|by eexists].
  destruct command as [|ch command]; [by eexists|].
  do 4 (rewrite decide_False
          by (intros Heq; eapply Hnot; [|by rewrite Heq];
              repeat first [apply list_elem_of_here | apply list_elem_of_further])).
  by eexists.
Qed.

Lemma snoc_neq {A : Type} (l : list A) (x : A) : l <> l ++ [x].
Proof.
  intros Heq. apply (f_equal length) in Heq. rewrite length_app in Heq.
  simpl in Heq. lia.
Qed.

Lemma snoc2_neq {A : Type} (l : list A) (x y z : A) : l ++ [x; y] <> l ++ [z].
Proof.
  intros Heq. apply (f_equal length) in Heq. rewrite !length_app in Heq.
  simpl in Heq. lia.
Qed.

(** For a subcommand that [register_parser] declares, given a value for
    each argument declared for it, an invocation reads no attribute that
    is missing and is not refused as unknown: it completes or exits with
    status 1 from its handler.  The parser stores the chosen subcommand in
    the attribute that [execute] reads. *)
Lemma execute_declared_command (cmd : Parser) (args : Namespace)
    (w : FileSystem * Console) :
  cmd ∈ parser_commands DbCommands.db_parser ->
  db_command args = Some (parser_name cmd) ->
  (forall a, a ∈ parser_arguments cmd -> is_Some (attributes args !! arg_dest a)) ->
  let r := DbCommands.execute repr register_path args w in
  (r.1 = Completed \/ r.1 = SysExit 1)
  /\ stderr r.2.2
     <> stderr w.2 ++ ["Error: Unknown command '" +:+ parser_name cmd +:+ "'"]
  /\ parser_dest DbCommands.db_parser = Some "db_command".
Proof.
  intros Hcmd Hcommand Hargs. destruct w as [fs out].
  unfold DbCommands.db_parser in Hcmd. simpl in Hcmd.
  repeat (apply elem_of_cons in Hcmd as [->|Hcmd]);
    [| | | | by apply elem_of_nil in Hcmd];
    simpl in Hargs, Hcommand |- *; unfold DbCommands.execute;
    rewrite Hcommand; simpl.
  - (* add *)
    destruct (Hargs {| arg_dest := "name"; arg_help := "Database identifier name" |})
      as [name Hname]; [by left|].
    destruct (Hargs {| arg_dest := "connection_string";
                       arg_help := "Database connection string or path" |})
      as [cs Hcs]; [right; by left|].
    simpl in Hname, Hcs. unfold getattr. rewrite Hname, Hcs.
    unfold DbCommands._add. split; [by left|]. split; [|done].
    destruct (truthy _); simpl.
    + intros Heq. apply app_inv_head in Heq. discriminate.
    + apply snoc_neq.
  - (* list *)
    unfold DbCommands._list. split; [|split; [|done]].
    + case_decide; [by left|].
      destruct (DbCommands.list_items _ _ _) as [[e|] out']; [by right|by left].
    + case_decide; simpl; [apply snoc_neq|].
      destruct (DbCommands.list_items repr _ _) as [[e|] out'] eqn:Hitems; simpl.
      * rewrite (list_items_stderr _ _ _ _ Hitems). intros Heq. apply app_inv_head in Heq. discriminate.
      * rewrite (list_items_stderr _ _ _ _ Hitems). apply snoc_neq.
  - (* get *)
    destruct (Hargs {| arg_dest := "name"; arg_help := "Database identifier name" |})
      as [name Hname]; [by left|].
    simpl in Hname. unfold getattr. rewrite Hname.
    unfold DbCommands._get. split; [|split; [|done]].
    + destruct (negb _); [by right|].
      destruct (dict_get _ _ _); [by right|by left].
    + destruct (negb _); simpl.
      * rewrite <- app_assoc. apply snoc2_neq.
      * destruct (dict_get _ _ _); simpl.
        -- intros Heq. apply app_inv_head in Heq. discriminate.
        -- apply snoc_neq.
  - (* remove *)
    destruct (Hargs {| arg_dest := "name";
                       arg_help := "Database identifier name to remove" |})
      as [name Hname]; [by left|].
    simpl in Hname. unfold getattr. rewrite Hname.
    unfold DbCommands._remove.
    destruct (DbConfig.remove name fs) as [[] fs']; simpl.
    + split; [by left|]. split; [apply snoc_neq|done].
    + split; [by right|]. split; [|done].
      rewrite <- app_assoc. apply snoc2_neq.
Qed.

(** One invocation keeps a well-shaped register well shaped. *)
Lemma invoke_well_shaped (fs : FileSystem) (args : Namespace) :
  well_shaped (DbConfig.load_register fs) ->
  well_shaped
    (DbConfig.load_register (DbCommands.invoke repr register_path fs args)).
Proof.
  intros Hws. unfold DbCommands.invoke.
  destruct (execute_file_system args fs {| stdout := []; stderr := [] |})
    as [->|[[_ (name & cs & ->)]|[_ (name & ->)]]].
  - done.
  - rewrite load_add. by apply well_shaped_insert.
  - rewrite load_remove. by apply well_shaped_delete.
Qed.

Lemma invocations_well_shaped (fs : FileSystem) (commands : list Namespace) :
  well_shaped (DbConfig.load_register fs) ->
  well_shaped
    (DbConfig.load_register
       (DbCommands.invocations repr register_path fs commands)).
Proof.
  revert fs. induction commands as [|args commands IH]; intros fs Hws; [done|].
  simpl. apply IH. by apply invoke_well_shaped.
Qed.

(** [_list] on a register whose entries are all ones that [add] stores:
    it completes without touching the error stream or the file system;
    for an empty register it prints the two lines that say so, and
    otherwise a header with the number of entries, an empty line, and two
    lines for each entry: its name and its connection string. *)
Lemma cli_list_well_shaped (fs : FileSystem) (out : Console) :
  well_shaped (DbConfig.load_register fs) ->
  let r := DbCommands._list repr (fs, out) in
  r.1 = Completed /\ r.2.1 = fs /\ stderr r.2.2 = stderr out
  /\ (DbConfig.load_register fs = ∅ ->
      stdout r.2.2
      = stdout out
        ++ ["No databases registered.";
            "Use 'genro db add <name> <connection_string>' to register a database."])
  /\ (DbConfig.load_register fs <> ∅ ->
      exists lines,
        stdout r.2.2
        = (stdout out
           ++ ["Registered databases ("
               +:+ pretty (size (DbConfig.load_register fs)) +:+ "):"; ""])
          ++ lines
        /\ length lines = 2 * size (DbConfig.load_register fs)
        /\ forall name cs,
             DbConfig.load_register fs !! name = Some (connection_entry cs) ->
             exists before after,
               lines = before
                       ++ ["  " +:+ name +:+ ":"; "    Connection: " +:+ cs]
                       ++ after).
Proof.
  intros Hws.
  destruct (decide (DbConfig.load_register fs = ∅)) as [Hempty|Hne].
  - assert (Hrun : DbCommands._list repr (fs, out)
                   = (Completed,
                      (fs, print
                             "Use 'genro db add <name> <connection_string>' to register a database."
                             (print "No databases registered." out)))).
    { unfold DbCommands._list, DbConfig.list_all. by rewrite decide_True. }
    cbn zeta. rewrite Hrun. cbn [fst snd].
    split; [done|]. split; [done|]. split; [done|]. split; [|done].
    intros _. unfold print. simpl. by rewrite <- app_assoc.
  - destruct (list_well_shaped fs out Hws Hne) as (pairs & Hitems & Hrun).
    cbn zeta. rewrite Hrun. cbn [fst snd stdout stderr].
    split; [done|]. split; [done|]. split; [done|]. split; [done|].
    intros _. exists (flat_map listed_lines pairs). split; [done|]. split.
    + rewrite flat_map_listed_length, <- length_map_to_list, Hitems.
      by rewrite length_fmap.
    + intros name cs Hentry. apply elem_of_map_to_list in Hentry.
      rewrite Hitems in Hentry. apply list_elem_of_fmap in Hentry as ([n c] & Heq & Hin).
      simpl in Heq. injection Heq as -> ->.
      apply (flat_map_listed_split pairs (n, c) Hin).
Qed.

(** The register file is only ever written after its directory has been
    made. *)
Lemma invoke_keeps_directory (fs : FileSystem) (args : Namespace) :
  register_file fs = None \/ db_dir_exists fs = true ->
  let fs' := DbCommands.invoke repr register_path fs args in
  register_file fs' = None \/ db_dir_exists fs' = true.
Proof.
  intros Hdir. unfold DbCommands.invoke.
  destruct (execute_file_system args fs {| stdout := []; stderr := [] |})
    as [->|[[_ (name & cs & ->)]|[_ (name & ->)]]].
  - done.
  - by right.
  - destruct (remove_absent_or_present name fs) as [[_ ->]|[_ ->]];
      [done | by right].
Qed.

Lemma invocations_keep_directory (fs : FileSystem) (commands : list Namespace) :
  register_file fs = None \/ db_dir_exists fs = true ->
  let fs' := DbCommands.invocations repr register_path fs commands in
  register_file fs' = None \/ db_dir_exists fs' = true.
Proof.
  revert fs. induction commands as [|args commands IH]; intros fs Hdir; [done|].
  simpl. apply IH. by apply invoke_keeps_directory.
Qed.

(** Whatever the tool has been invoked with, starting before any register
    exists: every entry of the register is one that [add] stores, the
    register file exists only if its directory does, [_list] completes,
    and [_get] completes for a registered name and exits with status 1
    for any other. *)
Lemma invocations_keep_register_listable (commands : list Namespace)
    (out : Console) (name : string) :
  let fs := DbCommands.invocations repr register_path no_register commands in
  well_shaped (DbConfig.load_register fs)
  /\ (register_file fs = None \/ db_dir_exists fs = true)
  /\ (DbCommands._list repr (fs, out)).1 = Completed
  /\ (DbCommands._get repr name (fs, out)).1
     = if decide (name ∈ dom (DbConfig.load_register fs))
       then Completed else SysExit 1.
Proof.
  cbn zeta.
  assert (Hws : well_shaped
                  (DbConfig.load_register
                     (DbCommands.invocations repr register_path no_register commands)))
    by (apply invocations_well_shaped, well_shaped_empty).
  assert (Hdir := invocations_keep_directory no_register commands (or_introl eq_refl)).
  cbn zeta in Hdir.
  set (fs := DbCommands.invocations repr register_path no_register commands) in *.
  split; [exact Hws|]. split; [exact Hdir|]. split.
  - destruct (decide (DbConfig.load_register fs = ∅)) as [Hempty|Hne].
    + unfold DbCommands._list, DbConfig.list_all. by rewrite decide_True.
    + destruct (list_well_shaped fs out Hws Hne) as (pairs & _ & ->). done.
  - unfold DbCommands._get, DbConfig.get. case_decide as Hin.
    + apply elem_of_dom in Hin as [v Hv]. rewrite Hv.
      destruct (Hws name v Hv) as [cs ->].
      by rewrite py_value_Some, truthy_entry, dict_get_entry.
    + apply not_elem_of_dom in Hin. by rewrite Hin.
Qed.
End db_commands.

(** * The theorems at the scenario's table *)

Lemma get_current_schema_no_rows_shelf :
  select_columns (database book_cursor) "shelf" = []
  /\ (PostgreSQLAdapter.get_current_schema book_cursor "shelf").1 = ∅.
Proof.
  assert (H : select_columns (database book_cursor) "shelf" = [])
    by reflexivity.
  split; [exact H|]. exact (get_current_schema_no_rows book_cursor "shelf" H).
Defined.

Lemma book_catalog_consistent : catalog_consistent book_catalog.
Proof.
  intros r Hr. simpl in Hr.
  repeat (apply elem_of_cons in Hr as [->|Hr]);
    [| | | by apply elem_of_nil in Hr]; simpl; by left.
Defined.

Lemma get_current_schema_missing_shelf :
  catalog_consistent (database book_cursor)
  /\ (PostgreSQLAdapter._table_exists book_cursor "shelf").1 = false
  /\ (PostgreSQLAdapter.get_current_schema
        (PostgreSQLAdapter._table_exists book_cursor "shelf").2 "shelf").1 = ∅.
Proof.
  assert (H : (PostgreSQLAdapter._table_exists book_cursor "shelf").1 = false)
    by reflexivity.
  split; [exact book_catalog_consistent|]. split; [exact H|].
  exact (get_current_schema_missing_table book_cursor "shelf"
           book_catalog_consistent H).
Defined.

Lemma get_current_schema_entry_title :
  (PostgreSQLAdapter.get_current_schema book_cursor "book").1 !! "title"
  = Some title_info
  /\ ColumnInfo.name title_info = "title"
  /\ ColumnInfo.notnull title_info = 1%Z.
Proof.
  assert (H : (PostgreSQLAdapter.get_current_schema book_cursor "book").1
              !! "title" = Some title_info)
    by (vm_compute; reflexivity).
  split; [exact H|].
  destruct (get_current_schema_entry book_cursor "book" "title" title_info H)
    as [Hname _].
  split; [exact Hname | reflexivity].
Defined.

Lemma book_live_matches : SchemaSynchronizer.schema_matches book book_live.
Proof.
  split; [by vm_compute|].
  intros col info Hcol Hlive.
  repeat (apply elem_of_cons in Hcol as [->|Hcol]);
    [| | | by apply elem_of_nil in Hcol];
    vm_compute in Hlive; injection Hlive as <-; split; reflexivity.
Defined.

Lemma synchronize_idempotent_book :
  SchemaSynchronizer.synchronize (postgres no_rebuild) book_cursor book
  = ({| SchemaSynchronizer.plan := [];
        SchemaSynchronizer.unresolved_drift := [] |},
     book_cursor_introspected)
  /\ (SchemaSynchronizer.synchronize (postgres no_rebuild)
        (SchemaSynchronizer.synchronize (postgres no_rebuild) book_cursor book).2
        book).1
     = {| SchemaSynchronizer.plan := [];
          SchemaSynchronizer.unresolved_drift := [] |}.
Proof.
  assert (Hintro : SchemaSynchronizer.introspect (postgres no_rebuild)
                     book_cursor (sql_name book)
                   = (true, book_live, book_cursor_introspected))
    by reflexivity.
  destruct (synchronize_idempotent (postgres no_rebuild) book_cursor
              book_cursor_introspected book book_live
              (postgres_introspection_repeatable no_rebuild)
              Hintro book_live_matches)
    as (_ & _ & _ & Hrun & Hagain).
  split; [exact Hrun | exact Hagain].
Defined.

Lemma book_primary_key_declared : CRUD.primary_key_declared book.
Proof.
  exists {| col_name := "id"; col_type := py_int; col_nullable := false;
            col_default := None; col_primary_key := true |}.
  split; [by left | done].
Defined.

Lemma insert_get_round_trip_emma :
  CRUD.valid_record book emma = true
  /\ exists key r,
       CRUD.insert book [CRUD.new_row book dune (VInt 1)] emma
       = CRUD.Ok (key, [CRUD.new_row book dune (VInt 1)] ++ [r])
       /\ CRUD.get book ([CRUD.new_row book dune (VInt 1)] ++ [r]) key = CRUD.Ok r
       /\ r !! pkey book = Some key.
Proof.
  assert (Hvalid : CRUD.valid_record book emma = true) by reflexivity.
  assert (Hfresh : forall v, emma !! pkey book = Some v ->
            Some v ∉ CRUD.keys book [CRUD.new_row book dune (VInt 1)]).
  { intros v Hv. vm_compute in Hv. injection Hv as <-.
    apply (bool_decide_unpack _). vm_compute. exact I. }
  split; [exact Hvalid|].
  destruct (insert_get_round_trip book [CRUD.new_row book dune (VInt 1)] emma
              Hvalid) as [Hget Hins].
  destruct (Hins book_primary_key_declared Hfresh) as [r Hr].
  destruct (Hget _ _ Hr) as (r' & Heq & Hget' & Hkey & _).
  apply app_inj_tail in Heq as [_ <-].
  eexists _, r. split; [exact Hr|]. split; [exact Hget' | exact Hkey].
Defined.

Lemma two_books_well_formed : CRUD.well_formed book two_books.
Proof.
  split; apply (bool_decide_unpack _); vm_compute; exact I.
Defined.

Lemma delete_finality_two_books :
  CRUD.well_formed book two_books
  /\ Some (VInt 1) ∈ CRUD.keys book two_books
  /\ exists rows',
       CRUD.delete book two_books (VInt 1) = CRUD.Ok rows'
       /\ CRUD.get book rows' (VInt 1) = CRUD.Err CRUD.NotFound
       /\ length (CRUD.list_rows book two_books)
          = S (length (CRUD.list_rows book rows')).
Proof.
  assert (Hin : Some (VInt 1) ∈ CRUD.keys book two_books)
    by (apply (bool_decide_unpack _); vm_compute; exact I).
  split; [exact two_books_well_formed|]. split; [exact Hin|].
  destruct (delete_finality book two_books (VInt 1) two_books_well_formed Hin)
    as (rows' & Hdel & _ & Hget & _ & Hlen & _).
  exists rows'. split; [exact Hdel|]. split; [exact Hget | exact Hlen].
Defined.

Lemma get_current_schema_distinct_book :
  NoDup (column_name <$> select_columns (database book_cursor) "book")
  /\ size (PostgreSQLAdapter.get_current_schema book_cursor "book").1
     = length (select_columns (database book_cursor) "book").
Proof.
  assert (H : NoDup (column_name <$> select_columns (database book_cursor) "book"))
    by (apply (bool_decide_unpack _); vm_compute; exact I).
  split; [exact H|].
  exact (proj1 (get_current_schema_distinct book_cursor "book" H)).
Defined.

Lemma drop_columns_union_pages_title :
  ({["pages"]} : gset string) ## {["title"]}
  /\ (PostgreSQLAdapter._drop_columns book_cursor book ({["pages"]} ∪ {["title"]})).1
     ≡ₚ (PostgreSQLAdapter._drop_columns book_cursor book {["pages"]}).1
        ++ (PostgreSQLAdapter._drop_columns book_cursor book {["title"]}).1.
Proof.
  assert (H : ({["pages"]} : gset string) ## {["title"]})
    by (apply disjoint_singleton_l, not_elem_of_singleton; discriminate).
  split; [exact H|].
  exact (drop_columns_union book_cursor book_cursor book {["pages"]} {["title"]} H).
Defined.

Lemma add_remove_restores_main :
  ("main" ∉ dom (DbConfig.load_register no_register))
  /\ DbConfig.remove "main" (DbConfig.add "main" "sqlite:///main.db" no_register)
     = (true, {| db_dir_exists := true;
                 register_file := Some (DbConfig.load_register no_register) |}).
Proof.
  assert (H : "main" ∉ dom (DbConfig.load_register no_register)).
  { change (DbConfig.load_register no_register) with (∅ : gmap string json).
    rewrite dom_empty_L. apply not_elem_of_empty. }
  split; [exact H|].
  exact (add_remove_restores "main" "sqlite:///main.db" no_register H).
Defined.

Lemma add_commutes_main_test :
  "main" <> "test"
  /\ DbConfig.get "test"
       (DbConfig.add "main" "a.db" (DbConfig.add "test" "b.db" no_register))
     = DbConfig.get "test"
         (DbConfig.add "test" "b.db" (DbConfig.add "main" "a.db" no_register)).
Proof.
  assert (H : "main" <> "test") by discriminate.
  split; [exact H|].
  exact (proj1 (add_commutes "main" "test" "a.db" "b.db" no_register "test" H)).
Defined.

Lemma cli_add_then_get_main :
  (DbCommands._add sample_path "main" "sqlite:///main.db"
     (no_register, no_output)).1 = Completed
  /\ (DbCommands._get sample_repr "main"
        (DbCommands._add sample_path "main" "sqlite:///main.db"
           (no_register, no_output)).2).1 = Completed.
Proof.
  assert (H : (DbCommands._add sample_path "main" "sqlite:///main.db"
                 (no_register, no_output)).1 = Completed) by reflexivity.
  split; [exact H|].
  exact (f_equal fst
           (cli_add_then_get sample_repr sample_path "main" "sqlite:///main.db"
              (no_register, no_output) H)).
Defined.

Lemma cli_get_not_found_empty_entry :
  truthy (py_value (DbConfig.get "empty" edited_register)) = false
  /\ (DbCommands._get sample_repr "empty" (edited_register, no_output)).1
     = SysExit 1.
Proof.
  assert (H : truthy (py_value (DbConfig.get "empty" edited_register)) = false)
    by (vm_compute; reflexivity).
  split; [exact H|].
  rewrite (cli_get_not_found sample_repr "empty" edited_register no_output H).
  reflexivity.
Defined.

Lemma cli_get_not_a_dictionary_text :
  DbConfig.get "text" edited_register = Some (JString "sqlite:///x.db")
  /\ DbCommands._get sample_repr "text" (edited_register, no_output)
     = (SysExit 1,
        (edited_register,
         {| stdout := ["Database: text"];
            stderr := ["Error getting database info: 'str' object has no attribute 'get'"] |})).
Proof.
  assert (H : DbConfig.get "text" edited_register = Some (JString "sqlite:///x.db"))
    by (vm_compute; reflexivity).
  split; [exact H|].
  refine (cli_get_not_a_dictionary sample_repr "text" edited_register no_output
            (JString "sqlite:///x.db") H _ _); [reflexivity | discriminate].
Defined.

Lemma execute_get_does_not_write :
  db_command (args_get "main") <> Some "add"
  /\ db_command (args_get "main") <> Some "remove"
  /\ (DbCommands.execute sample_repr sample_path (args_get "main")
        (main_registered, no_output)).2.1 = main_registered.
Proof.
  assert (H1 : db_command (args_get "main") <> Some "add") by discriminate.
  assert (H2 : db_command (args_get "main") <> Some "remove") by discriminate.
  split; [exact H1|]. split; [exact H2|].
  exact (execute_writes_only_on_add_and_remove sample_repr sample_path
           (args_get "main") (main_registered, no_output) H1 H2).
Defined.

Lemma args_drop_undeclared (cmd : Parser) :
  cmd ∈ parser_commands DbCommands.db_parser ->
  db_command args_drop <> Some (parser_name cmd).
Proof.
  unfold DbCommands.db_parser. simpl. intros Hcmd.
  repeat (apply elem_of_cons in Hcmd as [->|Hcmd]);
    [| | | | by apply elem_of_nil in Hcmd]; discriminate.
Defined.

Lemma execute_undeclared_drop :
  exists line,
    DbCommands.execute sample_repr sample_path args_drop (no_register, no_output)
    = (SysExit 1, (no_register, {| stdout := []; stderr := [] ++ [line] |})).
Proof.
  exact (execute_undeclared_command sample_repr sample_path args_drop
           (no_register, no_output) args_drop_undeclared).
Defined.

Lemma execute_declared_get :
  get_command ∈ parser_commands DbCommands.db_parser
  /\ db_command (args_get "main") = Some (parser_name get_command)
  /\ ((DbCommands.execute sample_repr sample_path (args_get "main")
         (main_registered, no_output)).1 = Completed
      \/ (DbCommands.execute sample_repr sample_path (args_get "main")
            (main_registered, no_output)).1 = SysExit 1).
Proof.
  assert (H1 : get_command ∈ parser_commands DbCommands.db_parser).
  { unfold DbCommands.db_parser, get_command. simpl.
    do 2 apply list_elem_of_further. apply list_elem_of_here. }
  assert (H2 : db_command (args_get "main") = Some (parser_name get_command))
    by reflexivity.
  assert (H3 : forall a, a ∈ parser_arguments get_command ->
                         is_Some (attributes (args_get "main") !! arg_dest a)).
  { intros a Ha. simpl in Ha. apply list_elem_of_singleton in Ha as ->.
    simpl. rewrite lookup_singleton_eq. by eexists. }
  split; [exact H1|]. split; [exact H2|].
  exact (proj1 (execute_declared_command sample_repr sample_path get_command
                  (args_get "main") (main_registered, no_output) H1 H2 H3)).
Defined.

Lemma main_registered_well_shaped :
  well_shaped (DbConfig.load_register main_registered).
Proof.
  unfold main_registered. rewrite load_add.
  apply well_shaped_insert, well_shaped_empty.
Defined.

Lemma cli_list_main_registered :
  well_shaped (DbConfig.load_register main_registered)
  /\ (DbCommands._list sample_repr (main_registered, no_output)).1 = Completed
  /\ stderr (DbCommands._list sample_repr (main_registered, no_output)).2.2 = [].
Proof.
  split; [exact main_registered_well_shaped|].
  destruct (cli_list_well_shaped sample_repr main_registered no_output
              main_registered_well_shaped) as (Hdone & _ & Herr & _).
  split; [exact Hdone | exact Herr].
Defined.

(** * The operations on concrete inputs *)

Example drop_two_columns :
  (PostgreSQLAdapter._drop_columns book_cursor book {["pages"; "title"]}).1
  ≡ₚ [ "ALTER TABLE book DROP COLUMN pages";
       "ALTER TABLE book DROP COLUMN title" ].
Proof. vm_compute. first [reflexivity | apply perm_swap]. Qed.

Example register_add_then_remove :
  let fs := {| db_dir_exists := false; register_file := None |} in
  let fs1 := DbConfig.add "main" "sqlite:///main.db" fs in
  DbConfig.get "main" fs1
  = Some (JObject [("connection_string", JString "sqlite:///main.db")])
  /\ DbConfig.remove "other" fs1 = (false, fs1)
  /\ (DbConfig.remove "main" fs1).1 = true
  /\ DbConfig.get "main" (DbConfig.remove "main" fs1).2 = None.
Proof. repeat split; by vm_compute. Qed.

(** A hook on [book] that updates the record it was triggered for: the
    nested update is made, its hook is not run again. *)
Example hook_updates_its_own_record :
  let k : TriggerStack.triple := ("book", TriggerStack.op_update, VInt 1) in
  let nested :=
    TriggerStack.Call k [TriggerStack.Call k [] false] false in
  TriggerStack.run (TriggerStack.Call k [nested] false) (∅, [])
  = (TriggerStack.Returned,
     (∅, [TriggerStack.HookRan k; TriggerStack.Mutated k; TriggerStack.Mutated k])).
Proof. by vm_compute. Qed.

Example create_book_sql :
  SchemaSynchronizer.create_table_sql (postgres no_rebuild) book
  = "CREATE TABLE book (id SERIAL PRIMARY KEY, title VARCHAR NOT NULL, pages BIGINT)".
Proof. by vm_compute. Qed.

(** The scenario: on the empty table, inserting [{title: "Dune", pages:
    412}] returns the key 1, and [get(1)] returns [{id: 1, title: "Dune",
    pages: 412}]. *)
Example scenario_insert_get :
  CRUD.insert book [] dune
  = CRUD.Ok (VInt 1,
             [dict_items [("id", VInt 1); ("title", VText "Dune");
                          ("pages", VInt 412)]])
  /\ CRUD.get book
       [dict_items [("id", VInt 1); ("title", VText "Dune"); ("pages", VInt 412)]]
       (VInt 1)
     = CRUD.Ok (dict_items [("id", VInt 1); ("title", VText "Dune");
                            ("pages", VInt 412)]).
Proof. split; by vm_compute. Qed.
